(** * ELM notebook: the Courrieu pseudoinverse [mp_pinv] and its ELM caller

    Shallow embedding of [src/ELM.ipynb].  [mp_pinv] is embedded once, against
    the NumPy calls it makes, and read over three models of those calls:
    exact arithmetic over an arbitrary real closed field (the square root of
    the Cholesky step lives there), where the algebra of the pseudoinverse is
    proved; a store of buffers, where the effect of the function on memory is
    proved; and binary64, where the function can be run.  Shapes are dynamic,
    as in NumPy: an array carries its row and column count, and a product of
    arrays whose inner dimensions differ raises [ValueError].  The cells that
    call [mp_pinv] (the comparison with [np.linalg.pinv], the normalization of
    the data, the training and the scoring of the network) are embedded over
    exact arithmetic. *)

From Stdlib Require Import String.
From Stdlib Require Reals Floats ZArith Lra.
From mathcomp Require Import boot order algebra.
From mathcomp Require Import algC.

Set Implicit Arguments.
Unset Strict Implicit.
Unset Printing Implicit Defensive.

Import GRing.Theory Num.Theory Order.POrderTheory Order.TotalTheory.

Local Open Scope ring_scope.

(** ** Exceptions and results *)

(** The two exception classes NumPy can raise from the calls in [mp_pinv],
    each with its message. *)
Inductive exception : Type :=
  | LinAlgError (msg : string)
  | ValueError (msg : string).

(** The class of an exception: what an [except] clause dispatches on.  The
    classes are related: see [isinstance]. *)
Inductive exception_class : Type := LinAlgErrorClass | ValueErrorClass.

Definition class_of (e : exception) : exception_class :=
  match e with
  | LinAlgError _ => LinAlgErrorClass
  | ValueError _ => ValueErrorClass
  end.

Definition message_of (e : exception) : string :=
  match e with LinAlgError s | ValueError s => s end.

(** [isinstance(e, c)], which decides whether [except c] catches [e]:
    [numpy.linalg.LinAlgError] derives from [ValueError]. *)
Definition isinstance (e : exception) (c : exception_class) : bool :=
  match e, c with
  | ValueError _, LinAlgErrorClass => false
  | _, _ => true
  end.

Inductive result (T : Type) : Type :=
  | Ok (x : T)
  | Raise (e : exception).

Arguments Ok {T} x.
Arguments Raise {T} e.

Definition bind {T U : Type} (r : result T) (k : T -> result U) : result U :=
  match r with
  | Ok x => k x
  | Raise e => Raise e
  end.

(** The messages; the one of [np.matmul] is the beginning of NumPy's, which
    goes on with the signature of the function and the two sizes. *)
Definition msg_not_posdef : string := "Matrix is not positive definite"%string.
Definition msg_singular : string := "Singular matrix"%string.
Definition msg_not_square : string :=
  "Last 2 dimensions of the array must be square"%string.
Definition msg_matmul : string :=
  "matmul: Input operand 1 has a mismatch in its core dimension 0"%string.

(** ** NumPy arrays and the operations [mp_pinv] calls *)

Module np.

Section Arrays.

Variable R : rcfType.

(** A two-dimensional array: its shape and its entries. *)
Record ndarray : Type := NdArray {
  rows : nat;
  cols : nat;
  data : 'M[R]_(rows, cols)
}.

(** [G.shape] *)
Definition shape (a : ndarray) : nat * nat := (rows a, cols a).

(** [G.T] *)
Definition T (a : ndarray) : ndarray := NdArray (data a)^T.

(** [np.matmul(a, b)]: the product when the inner dimensions agree. *)
Definition matmul (a b : ndarray) : result ndarray :=
  if cols a == rows b then
    Ok (NdArray (data a *m conform_mx (0 : 'M_(cols a, cols b)) (data b)))
  else Raise (ValueError msg_matmul).

End Arrays.

Arguments NdArray {R rows cols} data.

Module linalg.

Section Factor.

Variable R : rcfType.

(** The column below the pivot, scaled by the inverse of the pivot's root. *)
Definition chol_col {n : nat} (A : 'M[R]_(1 + n)) : 'cV[R]_n :=
  (Num.sqrt (A 0 0))^-1 *: dlsubmx A.

(** The trailing block once the first column has been eliminated. *)
Definition chol_rest {n : nat} (A : 'M[R]_(1 + n)) : 'M[R]_n :=
  drsubmx A - chol_col A *m (chol_col A)^T.

(** The factorization on an [n x n] matrix: the lower triangular factor with
    positive diagonal, or failure when a pivot is not positive.  Only the lower
    triangle of [A] is read.  One step takes the pivot [A 0 0], scales the
    column below it and recurses on the trailing block.  NumPy delegates to
    LAPACK; under exact arithmetic every correct routine computes this
    function on symmetric input (see [cholesky_mxP], [cholesky_mx_mulmx_tr]). *)
Fixpoint cholesky_mx {n : nat} : 'M[R]_n -> option 'M[R]_n :=
  match n with
  | 0 => fun _ => Some 0
  | n'.+1 => fun A : 'M_(1 + n') =>
      if 0 < A 0 0 then
        match cholesky_mx (chol_rest A) with
        | Some L' =>
            Some (block_mx ((Num.sqrt (A 0 0))%:M : 'M_1) 0 (chol_col A) L')
        | None => None
        end
      else None
  end.

(** [np.linalg.cholesky(a)] *)
Definition cholesky (a : ndarray R) : result (ndarray R) :=
  if rows a == cols a then
    match cholesky_mx (conform_mx (0 : 'M_(rows a)) (data a)) with
    | Some L => Ok (NdArray L)
    | None => Raise (LinAlgError msg_not_posdef)
    end
  else Raise (LinAlgError msg_not_square).

(** [np.linalg.inv(a)] *)
Definition inv (a : ndarray R) : result (ndarray R) :=
  if rows a == cols a then
    let A : 'M_(rows a) := conform_mx 0 (data a) in
    if A \in unitmx then Ok (NdArray (invmx A))
    else Raise (LinAlgError msg_singular)
  else Raise (LinAlgError msg_not_square).

End Factor.

End linalg.

End np.

(** ** The pseudoinverse

    [mp_pinv] is written against NumPy: it reads a shape, takes transposed
    views and calls [np.matmul], [np.linalg.cholesky] and [np.linalg.inv].
    Those calls are a parameter of the embedding. *)

Record numpy : Type := Numpy {
  np_monad : Type -> Type;
  np_array : Type;
  np_bind : forall A B : Type, np_monad A -> (A -> np_monad B) -> np_monad B;
  np_shape : np_array -> np_monad (nat * nat);
  np_T : np_array -> np_array;
  np_matmul : np_array -> np_array -> np_monad np_array;
  np_cholesky : np_array -> np_monad np_array;
  np_inv : np_array -> np_monad np_array
}.

Section Notebook.

Variable N : numpy.

Local Notation "x <- c ;; k" := (np_bind c (fun x => k))
  (at level 100, c at next level, right associativity).

(** The matrix [A] handed to the factorization: [G G^T] when the flag
    [transpose] is set, [G^T G] otherwise. *)
Definition mp_pinv_gram (transpose : bool) (G : np_array N) :
    np_monad N (np_array N) :=
  if transpose then np_matmul G (np_T G) else np_matmul (np_T G) G.

(** The body of [mp_pinv] once the flag [transpose] is set: the Gram matrix,
    its Cholesky factor, the inner inverse and the assembly of the result. *)
Definition mp_pinv_path (transpose : bool) (G : np_array N) :
    np_monad N (np_array N) :=
  A <- mp_pinv_gram transpose G ;;
  L <- np_cholesky A ;;
  LtL <- np_matmul (np_T L) L ;;
  M <- np_inv LtL ;;
  if transpose then
    Y1 <- np_matmul (np_T G) L ;;
    Y2 <- np_matmul Y1 M ;;
    Y3 <- np_matmul Y2 M ;;
    np_matmul Y3 (np_T L)
  else
    Y1 <- np_matmul L M ;;
    Y2 <- np_matmul Y1 M ;;
    Y3 <- np_matmul Y2 (np_T L) ;;
    np_matmul Y3 (np_T G).

(** [mp_pinv(G)]: the flag is set when [G] has fewer rows than columns.  (The
    source also overwrites [n] with [m] on that path; [n] is not read again.) *)
Definition mp_pinv (G : np_array N) : np_monad N (np_array N) :=
  mn <- np_shape G ;;
  let transpose := (mn.1 < mn.2)%N in
  mp_pinv_path transpose G.

End Notebook.

Arguments mp_pinv_gram : clear implicits.
Arguments mp_pinv_path : clear implicits.
Arguments mp_pinv : clear implicits.

(** *** NumPy under exact arithmetic *)

Definition exact (R : rcfType) : numpy :=
  @Numpy result (np.ndarray R) (@bind)
    (fun a => Ok (np.shape a)) (@np.T R) (@np.matmul R)
    (@np.linalg.cholesky R) (@np.linalg.inv R).

Section ExactNotions.

Variable R : rcfType.

(** Symmetric and positive definite matrices (row vector convention). *)
Definition symmetric_mx {n : nat} (A : 'M[R]_n) : Prop := A^T = A.

Definition posdef_mx {n : nat} (A : 'M[R]_n) : Prop :=
  forall v : 'rV[R]_n, v != 0 -> 0 < (v *m A *m v^T) 0 0.

(** Positive definiteness of the Gram matrix [mp_pinv] forms for [G]. *)
Definition gram_posdef {m n : nat} (G : 'M[R]_(m, n)) : Prop :=
  if (m < n)%N then posdef_mx (G *m G^T) else posdef_mx (G^T *m G).

(** Extending a row vector [y] by the first coordinate that cancels the pivot
    row turns the quadratic form of [A] into that of the trailing block. *)
Definition chol_lift {n : nat} (A : 'M[R]_(1 + n)) (y : 'rV[R]_n) :
    'rV[R]_(1 + n) :=
  row_mx (- (A 0 0)^-1 *: (y *m dlsubmx A)) y.

(** The closed form of the pseudoinverse of a full-rank [G]. *)
Definition pinv_mx {m n : nat} (G : 'M[R]_(m, n)) : 'M[R]_(n, m) :=
  if (m < n)%N then G^T *m invmx (G *m G^T) else invmx (G^T *m G) *m G^T.

(** The four Moore-Penrose identities for a candidate [Y] of [G]. *)
Definition moore_penrose {m n : nat} (G : 'M[R]_(m, n)) (Y : 'M[R]_(n, m)) :
    Prop :=
  [/\ G *m Y *m G = G, Y *m G *m Y = Y,
      (G *m Y)^T = G *m Y & (Y *m G)^T = Y *m G].

End ExactNotions.

(** *** NumPy over a store of buffers

    NumPy arrays are objects over buffers: [G.T] is a view on the buffer of
    [G], while [np.matmul], [np.linalg.cholesky] and [np.linalg.inv] write
    their result into a buffer they allocate.  The store is the list of the
    buffers allocated so far; an array object names a buffer and says whether
    it is seen transposed. *)

Module Heap.

Section Store.

Variable R : rcfType.

Definition heap : Type := seq (np.ndarray R).

Record ref : Type := Ref { base : nat; transposed : bool }.

Definition empty_array : np.ndarray R := np.NdArray (0 : 'M[R]_(0, 0)).

(** The array an object denotes in a store. *)
Definition deref (h : heap) (x : ref) : np.ndarray R :=
  let a := nth empty_array h (base x) in
  if transposed x then np.T a else a.

Definition valid (h : heap) (x : ref) : bool := (base x < size h)%N.

(** Computations that read and extend the store and may raise. *)
Definition M (A : Type) : Type := heap -> result A * heap.

Definition bindM {A B : Type} (c : M A) (k : A -> M B) : M B :=
  fun h => match c h with
           | (Ok x, h') => k x h'
           | (Raise e, h') => (Raise e, h')
           end.

(** A fresh buffer holding [a]. *)
Definition alloc (a : np.ndarray R) : M ref :=
  fun h => (Ok (Ref (size h) false), rcons h a).

(** A NumPy call: its result in a fresh buffer, or its exception. *)
Definition returning (r : result (np.ndarray R)) : M ref :=
  fun h => match r with
           | Ok a => alloc a h
           | Raise e => (Raise e, h)
           end.

Definition shape (x : ref) : M (nat * nat) :=
  fun h => (Ok (np.shape (deref h x)), h).

Definition T (x : ref) : ref := Ref (base x) (~~ transposed x).

Definition matmul (x y : ref) : M ref :=
  fun h => returning (np.matmul (deref h x) (deref h y)) h.

Definition cholesky (x : ref) : M ref :=
  fun h => returning (np.linalg.cholesky (deref h x)) h.

Definition inv (x : ref) : M ref :=
  fun h => returning (np.linalg.inv (deref h x)) h.

(** NumPy over the store. *)
Definition store : numpy :=
  @Numpy M ref (@bindM) shape T matmul cholesky inv.

(** A store computation [c] run from [h] only appends buffers, and returns
    what the pure [p] returns, in a buffer that [h] does not have. *)
Definition simulates (c : M ref) (p : result (np.ndarray R)) (h : heap) :
    Prop :=
  let: (r, h') := c h in
  (exists t, h' = h ++ t) /\
  match r, p with
  | Ok y, Ok a => [/\ valid h' y, (size h <= base y)%N & deref h' y = a]
  | Raise e, Raise e' => e = e'
  | _, _ => False
  end.

End Store.

End Heap.

(** *** NumPy on binary64

    Arrays are lists of rows of double precision numbers, and every operation
    rounds as IEEE 754 prescribes.  The factorization is the same recursion as
    under exact arithmetic (pivot test, square root, scaling by the reciprocal,
    update of the trailing block), and the inverse eliminates with partial
    pivoting and raises on a zero pivot, as LAPACK's routines do; the last bits
    of a result depend on the order of operations of the routine at hand (a
    library may fuse a product and a sum into one rounding), and so does what
    becomes of a pivot that is not a number.  A list of rows keeps no shape
    for an array without entries: the model is read on arrays that have
    entries. *)

Module np64.

Import Stdlib.Floats.Floats.

Local Open Scope float_scope.

Definition ndarray : Type := seq (seq float).

Definition shape (a : ndarray) : nat * nat := (size a, size (head [::] a)).

Definition T (a : ndarray) : ndarray :=
  [seq [seq nth 0 r j | r <- a] | j <- iota 0 (size (head [::] a))].

Definition dot (u v : seq float) : float :=
  foldl (fun acc p => acc + p.1 * p.2) 0 (zip u v).

Definition matmul (a b : ndarray) : result ndarray :=
  if (shape a).2 == (shape b).1 then
    Ok [seq [seq dot r c | c <- T b] | r <- a]
  else Raise (ValueError msg_matmul).

Module linalg.

Fixpoint cholesky_rows (n : nat) (a : ndarray) : option ndarray :=
  match n, a with
  | n'.+1, r0 :: rest =>
      let a00 := head 0 r0 in
      if 0 <? a00 then
        let l := sqrt a00 in
        let v := [seq head 0 r * (1 / l) | r <- rest] in
        let s := [seq [seq xv.1 - rv.2 * xv.2 | xv <- zip (behead rv.1) v]
                 | rv <- zip rest v] in
        match cholesky_rows n' s with
        | Some L' =>
            Some ((l :: nseq (size rest) 0) :: [seq p.1 :: p.2 | p <- zip v L'])
        | None => None
        end
      else None
  | _, _ => Some [::]
  end.

Definition cholesky (a : ndarray) : result ndarray :=
  if (shape a).1 == (shape a).2 then
    match cholesky_rows (size a) a with
    | Some L => Ok L
    | None => Raise (LinAlgError msg_not_posdef)
    end
  else Raise (LinAlgError msg_not_square).

(** Row [i] of the identity of size [n]. *)
Definition unit_row (n i : nat) : seq float :=
  [seq if j == i then 1 else 0 | j <- iota 0 n].

(** The first row whose entry in column [k] is largest in absolute value. *)
Definition argmax_abs (k : nat) (rows : ndarray) : nat :=
  (foldl (fun best ir =>
            if abs (nth 0 best.2 k) <? abs (nth 0 ir.2 k) then ir else best)
         (0%N, [::]) (zip (iota 0 (size rows)) rows)).1.

Definition eliminate (k : nat) (piv r : seq float) : seq float :=
  let m := nth 0 r k * (1 / nth 0 piv k) in
  [seq xp.1 - m * xp.2 | xp <- zip r piv].

(** Elimination on the rows of [(a | 1)], one column per step. *)
Fixpoint gauss (steps k : nat) (done todo : ndarray) : option ndarray :=
  match steps with
  | 0 => Some done
  | steps'.+1 =>
      let p := argmax_abs k todo in
      let piv := nth [::] todo p in
      if nth 0 piv k =? 0 then None
      else
        let others := take p todo ++ drop p.+1 todo in
        gauss steps' k.+1
          (rcons [seq eliminate k piv r | r <- done] piv)
          [seq eliminate k piv r | r <- others]
  end.

Definition inv (a : ndarray) : result ndarray :=
  if (shape a).1 == (shape a).2 then
    let n := size a in
    let rows := [seq ir.2 ++ unit_row n ir.1 | ir <- zip (iota 0 n) a] in
    match gauss n 0 [::] rows with
    | Some reduced =>
        Ok [seq [seq x / nth 0 kr.2 kr.1 | x <- drop n kr.2]
           | kr <- zip (iota 0 n) reduced]
    | None => Raise (LinAlgError msg_singular)
    end
  else Raise (LinAlgError msg_not_square).

End linalg.

End np64.

Definition binary64 : numpy :=
  @Numpy result np64.ndarray (@bind)
    (fun a => Ok (np64.shape a)) np64.T np64.matmul
    np64.linalg.cholesky np64.linalg.inv.

(** ** The ELM caller: activation and thresholding

    The activation is a function of real numbers; the classifier compares
    double precision scores, NaN and the infinities included. *)

Module ELM.

Import Stdlib.Reals.Reals Stdlib.Floats.Floats Stdlib.ZArith.ZArith.

Local Open Scope R_scope.

(** [sigmoid(x)], on one entry: the function of a real number that the code
    evaluates in binary64 (for the evaluation itself see [ELM64.sigmoid]). *)
Definition sigmoid (x : R) : R := 1 / (1 + exp (- x)).

(** [H = sigmoid(temp_H)] and [H_test = sigmoid(temp_Htest)]: NumPy applies
    the function entry by entry.  Here the entries are real numbers; the
    arrays of the code are [ELM64.H] and [ELM64.H_test]. *)
Definition H {p q : nat} (temp_H : 'M[R]_(p, q)) : 'M[R]_(p, q) :=
  map_mx sigmoid temp_H.

Definition H_test {p q : nat} (temp_Htest : 'M[R]_(p, q)) : 'M[R]_(p, q) :=
  map_mx sigmoid temp_Htest.

(** [testY <= c], entry by entry, with the comparison of IEEE 754. *)
Definition le_scalar {p q : nat} (A : 'M[float]_(p, q)) (c : float) :
    'M[bool]_(p, q) :=
  map_mx (fun s => PrimFloat.leb s c) A.

(** [np.where(cond, x, y)] with scalar [x] and [y]. *)
Definition where_ {p q : nat} (cond : 'M[bool]_(p, q)) (x y : Z) :
    'M[Z]_(p, q) :=
  map_mx (fun c : bool => if c then x else y) cond.

(** [Ypred = np.where(testY <= 0.5, 0, 1)] *)
Definition Ypred {p q : nat} (testY : 'M[float]_(p, q)) : 'M[Z]_(p, q) :=
  where_ (le_scalar testY 0.5%float) 0%Z 1%Z.

End ELM.

(** *** The activation on binary64

    The code evaluates [sigmoid] on double precision numbers.  [np.exp] calls
    the exponential of the C library; [exp] below is such a routine: the
    argument is reduced by a multiple of [ln 2] (kept in two parts), the
    exponential of the remainder is a polynomial, and the result is scaled by
    a power of two.  It is accurate to a few units in the last place, and
    beyond its two thresholds the result is infinite or zero, as in IEEE
    754. *)

Module ELM64.

Import Stdlib.Floats.Floats Stdlib.ZArith.ZArith.

Local Open Scope float_scope.

Definition ln2_hi : float := 0x1.62e42feep-1.

Definition ln2_lo : float := 0x1.a39ef35793c76p-33.

Definition inv_ln2 : float := 0x1.71547652b82fep+0.

(** The integer held by a float that is one. *)
Definition integer (f : float) : Z :=
  match Prim2SF f with
  | S754_finite s m e =>
      let v := if (0 <=? e)%Z then Z.shiftl (Z.pos m) e
               else Z.shiftr (Z.pos m) (- e) in
      if s then (- v)%Z else v
  | _ => 0%Z
  end.

(** The exponential of a remainder [r], at most [ln 2 / 2] in absolute value:
    the terms of the series up to [r^13 / 13!]. *)
Definition exp_poly (r : float) : float :=
  foldr (fun c p => 1 + r / c * p) 1
    [:: 1; 2; 3; 4; 5; 6; 7; 8; 9; 10; 11; 12; 13].

(** [np.exp(x)], on one entry. *)
Definition exp (x : float) : float :=
  if 0x1.62e42fefa39efp+9 <? x then infinity
  else if x <? -0x1.74910d52d3051p+9 then 0
  else
    let k := (x * inv_ln2 + 0x1.8p52) - 0x1.8p52 in
    let r := (x - k * ln2_hi) - k * ln2_lo in
    Z.ldexp (exp_poly r) (integer k).

(** [sigmoid(x)], on one entry. *)
Definition sigmoid (x : float) : float := 1 / (1 + exp (- x)).

(** [H = sigmoid(temp_H)] and [H_test = sigmoid(temp_Htest)] *)
Definition H (temp_H : np64.ndarray) : np64.ndarray :=
  [seq [seq sigmoid x | x <- row] | row <- temp_H].

Definition H_test (temp_Htest : np64.ndarray) : np64.ndarray :=
  [seq [seq sigmoid x | x <- row] | row <- temp_Htest].

End ELM64.

(** ** The cells around [mp_pinv]

    The notebook also compares [mp_pinv] with NumPy's own pseudoinverse,
    rescales the data set, fits the output weights of the network and scores
    held-out samples.  These cells are embedded over exact arithmetic, with
    the NumPy calls they add: arithmetic with broadcasting, [reshape],
    [np.ones], [min] and [max] along an axis and [np.mean]. *)

Definition msg_broadcast : string :=
  "operands could not be broadcast together"%string.
(** The beginning of NumPy's message, which goes on with the size of the
    array and the shape asked for. *)
Definition msg_reshape : string := "cannot reshape array"%string.
Definition msg_reduction (name : string) : string :=
  ("zero-size array to reduction operation " ++ name ++
   " which has no identity")%string.

Module ufunc.

Section Elementwise.

Variable R : rcfType.

Local Notation ndarray := (np.ndarray R).

(** A one-dimensional array. *)
Record ndarray1 : Type := NdArray1 {
  len : nat;
  data1 : 'rV[R]_len
}.

(** The entry at a position, of a two-dimensional and of a one-dimensional
    array. *)
Definition item (a : ndarray) (i j : nat) : R :=
  match insub i, insub j with
  | Some i', Some j' => np.data a i' j'
  | _, _ => 0
  end.

Definition item1 (v : ndarray1) (k : nat) : R :=
  if insub k is Some k' then data1 v 0 k' else 0.

(** Against a two-dimensional array, a one-dimensional array of length [n] is
    broadcast as an array of shape [(1, n)]. *)
Definition as_row (v : ndarray1) : ndarray := np.NdArray (data1 v).

(** [np.ones(n)] *)
Definition ones (n : nat) : ndarray1 := NdArray1 (const_mx 1 : 'rV_n).

(** [v.reshape(r, c)]: the entries in order, row after row. *)
Definition reshape (v : ndarray1) (r c : nat) : result ndarray :=
  if len v == (r * c)%N then
    Ok (np.NdArray (\matrix_(i < r, j < c) item1 v (i * c + j)))
  else Raise (ValueError msg_reshape).

(** The length two axes are broadcast to: they agree, or one of them is 1. *)
Definition broadcast_dim (a b : nat) : option nat :=
  if a == b then Some a
  else if a == 1%N then Some b
  else if b == 1%N then Some a
  else None.

Definition broadcast_shape (a b : ndarray) : option (nat * nat) :=
  match broadcast_dim (np.rows a) (np.rows b),
        broadcast_dim (np.cols a) (np.cols b) with
  | Some r, Some c => Some (r, c)
  | _, _ => None
  end.

(** The position read on an axis of length [d]: an axis of length 1 is
    repeated. *)
Definition stretch (d i : nat) : nat := if d == 1%N then 0%N else i.

(** The entries of a binary operation on two arrays broadcast to the shape
    [(r, c)]. *)
Definition broadcast_mx (T : Type) (op : R -> R -> T) (a b : ndarray)
    (r c : nat) : 'M[T]_(r, c) :=
  \matrix_(i < r, j < c)
    op (item a (stretch (np.rows a) i) (stretch (np.cols a) j))
       (item b (stretch (np.rows b) i) (stretch (np.cols b) j)).

(** A binary operation applied entry by entry, with broadcasting. *)
Definition broadcast (op : R -> R -> R) (a b : ndarray) : result ndarray :=
  if broadcast_shape a b is Some (r, c) then
    Ok (np.NdArray (broadcast_mx op a b r c))
  else Raise (ValueError msg_broadcast).

(** [a + b], [a - b], [a * b] *)
Definition add : ndarray -> ndarray -> result ndarray := broadcast +%R.

Definition subtract : ndarray -> ndarray -> result ndarray :=
  broadcast (fun x y => x - y).

Definition multiply : ndarray -> ndarray -> result ndarray := broadcast *%R.

(** An array of quotients: an entry is a number, or [None] where NumPy
    stores [nan] or an infinity for a division by zero. *)
Record quotients : Type := Quotients {
  qrows : nat;
  qcols : nat;
  qdata : 'M[option R]_(qrows, qcols)
}.

(** [a / b]: a division by zero raises nothing (NumPy warns and goes on). *)
Definition divide (a b : ndarray) : result quotients :=
  if broadcast_shape a b is Some (r, c) then
    Ok (Quotients
          (broadcast_mx (fun x y => if y == 0 then None else Some (x / y))
             a b r c))
  else Raise (ValueError msg_broadcast).

(** A function of one entry, or an operation with a scalar, applied entry by
    entry. *)
Definition map (f : R -> R) (a : ndarray) : ndarray :=
  np.NdArray (map_mx f (np.data a)).

(** [a.min(axis=0)] and [a.max(axis=0)]: one entry per column; an array with
    no row has nothing to reduce. *)
Definition reduce0 (name : string) (op : R -> R -> R) (a : ndarray) :
    result ndarray1 :=
  match np.rows a as m return 'M[R]_(m, np.cols a) -> result ndarray1 with
  | 0 => fun _ => Raise (ValueError (msg_reduction name))
  | m.+1 => fun A =>
      Ok (NdArray1 (\row_j \big[op/A ord0 j]_(i < m.+1) A i j))
  end (np.data a).

Definition amin : ndarray -> result ndarray1 :=
  reduce0 "minimum" Order.min.

Definition amax : ndarray -> result ndarray1 :=
  reduce0 "maximum" Order.max.

(** [np.mean(a)]: the mean of the entries; [None] stands for the [nan] NumPy
    returns on an array without entries. *)
Definition mean (a : ndarray) : option R :=
  if (np.rows a * np.cols a == 0)%N then None
  else Some ((\sum_i \sum_j np.data a i j) / (np.rows a * np.cols a)%:R).

End Elementwise.

End ufunc.

Module Cells.

Section Comparison.

Variable R : rcfType.

(** [np.linalg.pinv], NumPy's own pseudoinverse. *)
Variable pinv : np.ndarray R -> result (np.ndarray R).

Local Notation "x <- c ;; k" := (bind c (fun x => k))
  (at level 100, c at next level, right associativity).

(** The cell that compares the two pseudoinverses of [matrix]: the mean
    squared difference [np.mean((m01-m02)**2)] it prints. *)
Definition comparison (matrix : np.ndarray R) : result (option R) :=
  m01 <- pinv matrix ;;
  m02 <- mp_pinv (exact R) matrix ;;
  difference <- ufunc.subtract m01 m02 ;;
  Ok (ufunc.mean (ufunc.map (fun t => t ^+ 2) difference)).

End Comparison.

Section Normalization.

Variable R : rcfType.

Local Notation "x <- c ;; k" := (bind c (fun x => k))
  (at level 100, c at next level, right associativity).

(** [(X - X.min(axis=0))/(X.max(axis=0)-X.min(axis=0))].  The difference of
    the two one-dimensional arrays is kept as the row it is broadcast as. *)
Definition normalization (X : np.ndarray R) : result (ufunc.quotients R) :=
  low <- ufunc.amin X ;;
  numerator <- ufunc.subtract X (ufunc.as_row low) ;;
  high <- ufunc.amax X ;;
  low' <- ufunc.amin X ;;
  denominator <- ufunc.subtract (ufunc.as_row high) (ufunc.as_row low') ;;
  ufunc.divide numerator denominator.

End Normalization.

Section Network.

Variable R : rcfType.

(** [np.exp], on one entry.  It is a parameter: over the real numbers it is
    positive, so that [1+np.exp(-x)] is not zero; what is proved of the cells
    holds whatever function stands for it. *)
Variable exp : R -> R.

Local Notation ndarray := (np.ndarray R).

Local Notation "x <- c ;; k" := (bind c (fun x => k))
  (at level 100, c at next level, right associativity).

(** [sigmoid(x)]: [1/(1+np.exp(-x))], entry by entry. *)
Definition sigmoid (x : ndarray) : ndarray :=
  ufunc.map (fun t => 1 / (1 + exp (- t))) x.

(** What the training cell leaves for the cells after it. *)
Record fitted : Type := Fitted {
  w_i : ndarray;
  b_i : ndarray;
  H : ndarray;
  beta_i : ndarray;
  Y : ndarray
}.

(** The training cell.  [rand_w] and [rand_b] are what the two calls
    [np.random.rand(n_hidden, n_data)] and [np.random.rand(n_hidden, 1)]
    return; [true_] is the variable [true] of the notebook. *)
Definition training (Xtrain : ndarray) (Ytrain : ufunc.ndarray1 R)
    (rand_w rand_b : ndarray) : result fitted :=
  let n_train := np.rows Xtrain in
  column <- ufunc.reshape Ytrain n_train 1 ;;
  let true_ := np.T column in
  let w_i := ufunc.map (fun t => t * 2 - 1) rand_w in
  let b_i := rand_b in
  b_m <- ufunc.multiply b_i (ufunc.as_row (ufunc.ones R n_train)) ;;
  wX <- np.matmul w_i (np.T Xtrain) ;;
  temp_H <- ufunc.add wX b_m ;;
  let H := sigmoid temp_H in
  H_cross <- mp_pinv (exact R) (np.T H) ;;
  beta_i <- np.matmul H_cross (np.T true_) ;;
  Y <- np.matmul (np.T H) beta_i ;;
  Ok (Fitted w_i b_i H beta_i Y).

(** The test cell, up to the scores [testY]. *)
Definition testing (f : fitted) (Xtest : ndarray) : result ndarray :=
  let n_test := np.rows Xtest in
  b_mt <- ufunc.multiply (b_i f) (ufunc.as_row (ufunc.ones R n_test)) ;;
  wX <- np.matmul (w_i f) (np.T Xtest) ;;
  temp_Htest <- ufunc.add wX b_mt ;;
  let H_test := sigmoid temp_Htest in
  np.matmul (np.T H_test) (beta_i f).

(** [np.where(testY <= 0.5,0,1)] *)
Definition Ypred (testY : ndarray) :
    'M[nat]_(np.rows testY, np.cols testY) :=
  map_mx (fun s => if s <= 2^-1 then 0%N else 1%N) (np.data testY).

End Network.

End Cells.

Section CellNotions.

Variable R : rcfType.

(** The sum of the squares of the entries of a column. *)
Definition sum_squares {p : nat} (v : 'cV[R]_p) : R := \sum_i v i 0 ^+ 2.

(** The hidden layer on arrays of known shape: weights [W], biases [b] and
    one sample per row of [X]. *)
Definition hidden_mx (exp : R -> R) {h d p : nat} (W : 'M[R]_(h, d))
    (b : 'cV[R]_h) (X : 'M[R]_(p, d)) : 'M[R]_(h, p) :=
  map_mx (fun t => 1 / (1 + exp (- t)))
    (\matrix_(i, j) ((W *m X^T) i j + b i 0)).

(** The least and the largest entry of a column. *)
Definition column_min {m n : nat} (X : 'M[R]_(m.+1, n)) (j : 'I_n) : R :=
  \big[Order.min/X ord0 j]_i X i j.

Definition column_max {m n : nat} (X : 'M[R]_(m.+1, n)) (j : 'I_n) : R :=
  \big[Order.max/X ord0 j]_i X i j.

End CellNotions.

(** ** Concrete inputs over the real algebraic numbers *)

(** A wide matrix of full rank: the first two rows of the identity. *)
Definition wide_example : 'M[algR]_(2, 3) := pid_mx 2.

(** A square matrix of full rank. *)
Definition square_example : 'M[algR]_2 := 1%:M.

(** A square matrix with a duplicated row. *)
Definition deficient_example : 'M[algR]_2 := const_mx 1.

(** A store holding one array, and the object that names it. *)
Definition store_example : Heap.heap algR := [:: np.NdArray wide_example].

Definition ref_example : Heap.ref := Heap.Ref 0 false.

(** The square matrix with a duplicated row, in binary64. *)
Definition ones_example : np64.ndarray :=
  [:: [:: PrimFloat.one; PrimFloat.one]; [:: PrimFloat.one; PrimFloat.one]].

(** One training sample with one feature and label 1, for a network with one
    hidden neuron. *)
Definition Xtrain_example : 'M[algR]_(1, 1) := 0.

Definition Ytrain_example : 'rV[algR]_1 := const_mx 1.

Definition rand_w_example : 'M[algR]_(1, 1) := 0.

Definition rand_b_example : 'cV[algR]_1 := 0.

(** A function that agrees with the exponential where the sample above has it
    evaluated, at 0. *)
Definition exp_example (x : algR) : algR := 1.

(** A data set of two samples with one feature. *)
Definition data_example : 'M[algR]_(2, 1) :=
  col_mx (0 : 'M_(1, 1)) (1%:M : 'M_(1, 1)).

(** The matrix with rows [(0, 1)] and [(eps, 1)]: it is invertible as soon as
    [eps] is not zero. *)
Definition tilted_mx (R : rcfType) (eps : R) : 'M[R]_2 :=
  \matrix_(i, j) if (j : nat) == 0%N
                 then (if (i : nat) == 0%N then 0 else eps)
                 else 1.

Section Binary64Inputs.

Import Stdlib.Floats.Floats.

Local Open Scope float_scope.

(** That matrix in binary64, with [1e-8] for [eps]. *)
Definition tilted_example : np64.ndarray := [:: [:: 0; 1]; [:: 1e-8; 1]].


End Binary64Inputs.

(** * Properties *)

(** ** The Cholesky factor *)

Section CholeskyTheory.

Variable R : rcfType.

Import np.linalg.

Lemma cholesky_mxS n (A : 'M[R]_(1 + n)) :
  cholesky_mx A =
  if 0 < A 0 0 then
    omap (block_mx ((Num.sqrt (A 0 0))%:M : 'M_1) 0 (chol_col A))
         (cholesky_mx (chol_rest A))
  else None.
Proof. by rewrite /=; case: ifP => // _; case: (cholesky_mx _). Qed.

Lemma ulsubmx11 n (A : 'M[R]_(1 + n)) : ulsubmx A = (A 0 0)%:M.
Proof.
by apply/matrixP=> i j; rewrite !mxE !ord1 eqxx mulr1n !lshift0.
Qed.

Lemma symmetric_chol_rest n (A : 'M[R]_(1 + n)) :
  symmetric_mx A -> symmetric_mx (chol_rest A).
Proof.
move=> symA; rewrite /symmetric_mx /chol_rest linearB /= trmx_mul trmxK.
by rewrite trmx_drsub symA.
Qed.

Lemma cholesky_mx_trig n (A L : 'M[R]_n) :
  cholesky_mx A = Some L -> is_trig_mx L.
Proof.
elim: n A L => [|n IHn]; first by move=> A L _; apply/is_trig_mxP; case.
rewrite -[n.+1]/(1 + n)%N => A L; rewrite cholesky_mxS; case: ifP => // _.
case E: (cholesky_mx _) => [L'|] //= [<-].
by rewrite is_trig_block_mx // eqxx (IHn _ _ E) scalar_mx_is_trig.
Qed.

Lemma cholesky_mx_diag n (A L : 'M[R]_n) :
  cholesky_mx A = Some L -> forall i, 0 < L i i.
Proof.
elim: n A L => [|n IHn]; first by move=> A L _ [].
rewrite -[n.+1]/(1 + n)%N => A L; rewrite cholesky_mxS; case: ifP => // a_gt0.
case E: (cholesky_mx _) => [L'|] //= [<-] i.
case: (split_ordP i) => k ->; first by rewrite block_mxEul mxE eqxx sqrtr_gt0.
by rewrite block_mxEdr; apply: IHn E k.
Qed.

Lemma trig_diag_unitmx n (L : 'M[R]_n) :
  is_trig_mx L -> (forall i, 0 < L i i) -> L \in unitmx.
Proof.
move=> trigL posL; rewrite unitmxE unitfE det_trig //.
by apply/prodf_neq0 => i _; rewrite gt_eqF.
Qed.

Lemma cholesky_mx_unit n (A L : 'M[R]_n) :
  cholesky_mx A = Some L -> L \in unitmx.
Proof.
move=> cholA; apply: trig_diag_unitmx; first exact: cholesky_mx_trig cholA.
exact: cholesky_mx_diag cholA.
Qed.

(** The factor reproduces the matrix: [L * L^T = A] for symmetric [A]. *)
Lemma cholesky_mx_correct n (A L : 'M[R]_n) :
  symmetric_mx A -> cholesky_mx A = Some L -> L *m L^T = A.
Proof.
elim: n A L => [|n IHn]; first by move=> A L _ _; apply/matrixP; case.
rewrite -[n.+1]/(1 + n)%N => A L symA; rewrite cholesky_mxS.
case: ifP => // a_gt0.
case E: (cholesky_mx _) => [L'|] //= [<-].
have l_neq0 : Num.sqrt (A 0 0) != 0 by rewrite gt_eqF // sqrtr_gt0.
have colE : Num.sqrt (A 0 0) *: chol_col A = dlsubmx (A : 'M_(1 + n)).
  by rewrite /chol_col scalerA divff // scale1r.
rewrite (tr_block_mx (_ : 'M_1)) mulmx_block !trmx0 !mulmx0 mul0mx !addr0.
rewrite tr_scalar_mx -scalar_mxM -expr2 sqr_sqrtr ?ltW //.
rewrite mul_scalar_mx mul_mx_scalar -linearZ /= colE.
rewrite (IHn _ _ (symmetric_chol_rest symA) E) /chol_rest addrC subrK.
by rewrite trmx_dlsub symA -ulsubmx11 submxK.
Qed.

(** *** Positive definite matrices are exactly those that factor *)

Lemma trmx11 (M : 'M[R]_1) : M^T = M.
Proof. by apply/matrixP=> i j; rewrite mxE !ord1. Qed.

Lemma dotmx_gt0 n (u : 'rV[R]_n) : u != 0 -> 0 < (u *m u^T) 0 0.
Proof.
move=> u_neq0; rewrite mxE.
have -> : \sum_j u 0 j * u^T j 0 = \sum_j u 0 j ^+ 2.
  by apply: eq_bigr => j _; rewrite mxE expr2.
have sq_ge0 (j : 'I_n) : true -> 0 <= u 0 j ^+ 2 by move=> _; apply: sqr_ge0.
rewrite lt0r sumr_ge0 // andbT psumr_eq0 //.
apply: contraNN u_neq0 => /allP all0; apply/eqP/rowP=> j.
by have := all0 j (mem_index_enum j); rewrite sqrf_eq0 mxE => /eqP.
Qed.

Lemma posdef_pivot n (A : 'M[R]_(1 + n)) : posdef_mx A -> 0 < A 0 0.
Proof.
move=> /(_ (delta_mx 0 0)); rewrite -rowE trmx_delta -colE !mxE; apply.
by apply/eqP=> /matrixP/(_ 0 0)/eqP; rewrite !mxE !eqxx oner_eq0.
Qed.

Lemma chol_rest_form n (A : 'M[R]_(1 + n)) (y : 'rV[R]_n) :
  symmetric_mx A -> 0 < A 0 0 ->
  chol_lift A y *m A *m (chol_lift A y)^T = y *m chol_rest A *m y^T.
Proof.
move=> symA a_gt0; rewrite /chol_lift; set a := A 0 0; set b := dlsubmx A.
have a_neq0 : a != 0 by rewrite gt_eqF.
have Ablock : A = block_mx (a%:M : 'M_1) b^T b (drsubmx A).
  by rewrite /b trmx_dlsub symA -ulsubmx11 submxK.
rewrite [X in _ *m X *m _]Ablock mul_row_block tr_row_mx mul_row_col.
rewrite mul_mx_scalar scalerA mulrN divff // scaleN1r addNr mul0mx add0r.
rewrite mulmxDl /chol_rest mulmxBr mulmxBl -/b addrC; congr (_ + _).
rewrite /chol_col -/a -/b -scalemxAl -scalemxAl scaleNr; congr (- _).
rewrite linearZ /= -scalemxAr -scalemxAl scalerA -invfM -expr2.
by rewrite sqr_sqrtr ?ltW // -scalemxAr -scalemxAl !mulmxA.
Qed.

Lemma posdef_chol_rest n (A : 'M[R]_(1 + n)) :
  symmetric_mx A -> posdef_mx A -> posdef_mx (chol_rest A).
Proof.
move=> symA pdA y y_neq0; rewrite -chol_rest_form //.
  exact: posdef_pivot pdA.
by apply: pdA; rewrite /chol_lift row_mx_eq0 negb_and y_neq0 orbT.
Qed.

Lemma cholesky_mx_posdef n (A : 'M[R]_n) :
  symmetric_mx A -> posdef_mx A -> exists L, cholesky_mx A = Some L.
Proof.
elim: n A => [|n IHn]; first by move=> A _ _; exists 0.
rewrite -[n.+1]/(1 + n)%N => A symA pdA; rewrite cholesky_mxS posdef_pivot //.
have [L' ->] := IHn _ (symmetric_chol_rest symA) (posdef_chol_rest symA pdA).
by eexists.
Qed.

Lemma posdef_mulmx_tr n (L : 'M[R]_n) : L \in unitmx -> posdef_mx (L *m L^T).
Proof.
move=> unitL v v_neq0; rewrite mulmxA -mulmxA -trmx_mul; apply: dotmx_gt0.
by apply: contraNN v_neq0 => /eqP vL0; rewrite -(mulmxK unitL v) vL0 mul0mx.
Qed.

Lemma cholesky_mxP n (A : 'M[R]_n) :
  symmetric_mx A -> (exists L, cholesky_mx A = Some L) <-> posdef_mx A.
Proof.
move=> symA; split; last exact: cholesky_mx_posdef.
case=> L cholA; rewrite -(cholesky_mx_correct symA cholA).
exact/posdef_mulmx_tr/(cholesky_mx_unit cholA).
Qed.

(** The factor is unique: a lower triangular [L] with positive diagonal is
    what the factorization returns on [L L^T].  With [cholesky_mxP] this fixes
    the function on every symmetric matrix. *)
Lemma cholesky_mx_mulmx_tr n (L : 'M[R]_n) :
  is_trig_mx L -> (forall i, 0 < L i i) -> cholesky_mx (L *m L^T) = Some L.
Proof.
elim: n L => [|n IHn]; first by move=> L _ _; congr Some; apply/matrixP; case.
rewrite -[n.+1]/(1 + n)%N => L trigL posL.
have l_gt0 := posL 0; set l := L 0 0 in l_gt0.
have l_neq0 : l != 0 by rewrite gt_eqF.
have Lblock : L = block_mx (l%:M : 'M_1) 0 (dlsubmx L) (drsubmx L).
  by rewrite -[LHS]submxK ulsubmx11 ursubmx_trig.
set v := dlsubmx L in Lblock; set L' := drsubmx L in Lblock.
have prodE : L *m L^T =
    block_mx ((l ^+ 2)%:M : 'M_1) (l *: v^T) (l *: v) (v *m v^T + L' *m L'^T).
  rewrite {1 2}Lblock (tr_block_mx (_ : 'M_1)) mulmx_block.
  rewrite !trmx0 !mulmx0 mul0mx !addr0 tr_scalar_mx -scalar_mxM -expr2.
  by rewrite mul_scalar_mx mul_mx_scalar.
have pivotE : (L *m L^T) 0 0 = l ^+ 2.
  have: ulsubmx (L *m L^T) = ((l ^+ 2)%:M : 'M_1) by rewrite prodE block_mxKul.
  by rewrite ulsubmx11 => /matrixP/(_ 0 0); rewrite !mxE eqxx !mulr1n.
have rootE : Num.sqrt (l ^+ 2) = l by rewrite sqrtr_sqr gtr0_norm.
have colE : chol_col (L *m L^T) = v.
  by rewrite /chol_col pivotE rootE prodE block_mxKdl scalerA mulVf // scale1r.
have restE : chol_rest (L *m L^T) = L' *m L'^T.
  by rewrite /chol_rest colE prodE block_mxKdr addrC addKr.
rewrite cholesky_mxS pivotE exprn_gt0 // rootE colE restE.
rewrite IHn /= -?Lblock //; first exact: drsubmx_trig.
by move=> i; rewrite /L' !mxE; apply: posL.
Qed.

End CholeskyTheory.

(** ** Gram matrices and the assembled inverse *)

Section GramTheory.

Variable R : rcfType.

Import np.linalg.

Lemma symmetric_gram k p (B : 'M[R]_(k, p)) : symmetric_mx (B *m B^T).
Proof. by rewrite /symmetric_mx trmx_mul trmxK. Qed.

Lemma posdef_gram k p (B : 'M[R]_(k, p)) :
  row_free B -> posdef_mx (B *m B^T).
Proof.
move=> freeB v v_neq0; rewrite mulmxA -mulmxA -trmx_mul; apply: dotmx_gt0.
apply: contraNN v_neq0 => /eqP vB0; apply/eqP/(row_free_inj freeB).
by rewrite vB0 mul0mx.
Qed.

Lemma gram_unit_row_free k p (B : 'M[R]_(k, p)) :
  B *m B^T \in unitmx -> row_free B.
Proof.
move=> /mxrank_unit rankA; rewrite /row_free eqn_leq rank_leq_row /=.
by rewrite -{1}rankA mxrankM_maxl.
Qed.

Lemma gram_row_free_unit k p (B : 'M[R]_(k, p)) :
  row_free B -> B *m B^T \in unitmx.
Proof.
move=> freeB.
have [L cholA] := cholesky_mx_posdef (symmetric_gram B) (posdef_gram freeB).
rewrite -(cholesky_mx_correct (symmetric_gram B) cholA).
by rewrite unitmx_mul unitmx_tr (cholesky_mx_unit cholA).
Qed.

(** The factorization of a Gram matrix succeeds exactly on full row rank. *)
Lemma cholesky_gram k p (B : 'M[R]_(k, p)) :
  reflect (exists L, cholesky_mx (B *m B^T) = Some L) (row_free B).
Proof.
apply: (iffP idP) => [freeB|[L cholA]].
  exact: cholesky_mx_posdef (symmetric_gram B) (posdef_gram freeB).
apply: gram_unit_row_free.
rewrite -(cholesky_mx_correct (symmetric_gram B) cholA).
by rewrite unitmx_mul unitmx_tr (cholesky_mx_unit cholA).
Qed.

(** Courrieu's core product [L M M L^T], with [M] the inverse of [L^T L], is
    the inverse of [L L^T]. *)
Lemma courrieu_core n (L : 'M[R]_n) :
  L \in unitmx ->
  L *m invmx (L^T *m L) *m invmx (L^T *m L) *m L^T = invmx (L *m L^T).
Proof.
move=> unitL; set M := invmx _.
have unitLtL : L^T *m L \in unitmx by rewrite unitmx_mul unitmx_tr unitL.
have unitA : L *m L^T \in unitmx by rewrite unitmx_mul unitmx_tr unitL.
have PL : L *m (M *m L^T) *m L = L by rewrite -!mulmxA mulVmx // mulmx1.
have P1 : L *m (M *m L^T) = 1%:M by rewrite -[LHS](mulmxK unitL) PL mulmxV.
rewrite -[LHS](mulmxK unitA) -!mulmxA (mulmxA L^T) (mulKmx unitLtL).
by rewrite !mulmxA -(mulmxA L) P1 mul1mx.
Qed.

Lemma symmetric_invmx n (A : 'M[R]_n) :
  symmetric_mx A -> symmetric_mx (invmx A).
Proof. by rewrite /symmetric_mx trmx_inv => ->. Qed.

(** With an invertible Gram matrix [G G^T], [G^T (G G^T)^-1] is the
    pseudoinverse of [G] ... *)
Lemma moore_penrose_wide m n (G : 'M[R]_(m, n)) :
  G *m G^T \in unitmx -> moore_penrose G (G^T *m invmx (G *m G^T)).
Proof.
move=> unitA; have symK := symmetric_invmx (symmetric_gram G).
have GY : G *m (G^T *m invmx (G *m G^T)) = 1%:M by rewrite mulmxA mulmxV.
split; rewrite ?GY ?mul1mx ?trmx1 //; first by rewrite -mulmxA GY mulmx1.
by rewrite !trmx_mul trmxK symK mulmxA.
Qed.

(** ... and with an invertible [G^T G], it is [(G^T G)^-1 G^T]. *)
Lemma moore_penrose_tall m n (G : 'M[R]_(m, n)) :
  G^T *m G \in unitmx -> moore_penrose G (invmx (G^T *m G) *m G^T).
Proof.
move=> unitA; have := symmetric_invmx (symmetric_gram G^T).
rewrite trmxK => symK.
have YG : invmx (G^T *m G) *m G^T *m G = 1%:M by rewrite -mulmxA mulVmx.
split; rewrite ?YG ?mul1mx ?trmx1 //.
  by rewrite -!mulmxA mulVmx // mulmx1.
by rewrite !trmx_mul trmxK symK mulmxA.
Qed.

End GramTheory.

(** ** The pseudoinverse on arrays *)

Section PinvTheory.

Variable R : rcfType.

Import np.linalg.

Lemma matmulE m n p (A : 'M[R]_(m, n)) (B : 'M[R]_(n, p)) :
  np.matmul (np.NdArray A) (np.NdArray B) = Ok (np.NdArray (A *m B)).
Proof. by rewrite /np.matmul /= eqxx conform_mx_id. Qed.

Lemma choleskyE n (A : 'M[R]_n) :
  cholesky (np.NdArray A) =
  if cholesky_mx A is Some L then Ok (np.NdArray L)
  else Raise (LinAlgError msg_not_posdef).
Proof. by rewrite /cholesky /= eqxx conform_mx_id. Qed.

Lemma invE n (A : 'M[R]_n) :
  inv (np.NdArray A) =
  if A \in unitmx then Ok (np.NdArray (invmx A))
  else Raise (LinAlgError msg_singular).
Proof. by rewrite /inv /= eqxx conform_mx_id. Qed.

(** The two paths on an array of known shape. *)
Lemma mp_pinv_path_wide m n (G : 'M[R]_(m, n)) :
  mp_pinv_path (exact R) true (np.NdArray G) =
  if cholesky_mx (G *m G^T) is Some L then
    let M := invmx (L^T *m L) in
    if L^T *m L \in unitmx then
      Ok (np.NdArray (G^T *m L *m M *m M *m L^T))
    else Raise (LinAlgError msg_singular)
  else Raise (LinAlgError msg_not_posdef).
Proof.
rewrite /mp_pinv_path /mp_pinv_gram /np.T /= matmulE /= choleskyE.
case: (cholesky_mx _) => [L|] //=; rewrite matmulE /= invE.
by case: ifP => //= _; do 4!rewrite matmulE /=.
Qed.

Lemma mp_pinv_path_tall m n (G : 'M[R]_(m, n)) :
  mp_pinv_path (exact R) false (np.NdArray G) =
  if cholesky_mx (G^T *m G) is Some L then
    let M := invmx (L^T *m L) in
    if L^T *m L \in unitmx then
      Ok (np.NdArray (L *m M *m M *m L^T *m G^T))
    else Raise (LinAlgError msg_singular)
  else Raise (LinAlgError msg_not_posdef).
Proof.
rewrite /mp_pinv_path /mp_pinv_gram /np.T /= matmulE /= choleskyE.
case: (cholesky_mx _) => [L|] //=; rewrite matmulE /= invE.
by case: ifP => //= _; do 4!rewrite matmulE /=.
Qed.

Lemma mp_pinvE m n (G : 'M[R]_(m, n)) :
  mp_pinv (exact R) (np.NdArray G) =
  mp_pinv_path (exact R) (m < n)%N (np.NdArray G).
Proof. by []. Qed.

(** Each path succeeds on the rank condition it needs, whatever the shape. *)
Lemma mp_pinv_path_wide_ok m n (G : 'M[R]_(m, n)) :
  row_free G ->
  mp_pinv_path (exact R) true (np.NdArray G) =
  Ok (np.NdArray (G^T *m invmx (G *m G^T))).
Proof.
move=> /cholesky_gram[L cholA]; rewrite mp_pinv_path_wide cholA /=.
have unitL := cholesky_mx_unit cholA.
rewrite unitmx_mul unitmx_tr unitL /=; congr (Ok (np.NdArray _)).
rewrite -(cholesky_mx_correct (symmetric_gram G) cholA) -courrieu_core //.
by rewrite !mulmxA.
Qed.

Lemma mp_pinv_path_tall_ok m n (G : 'M[R]_(m, n)) :
  row_free G^T ->
  mp_pinv_path (exact R) false (np.NdArray G) =
  Ok (np.NdArray (invmx (G^T *m G) *m G^T)).
Proof.
move=> /cholesky_gram[L]; rewrite trmxK => cholA.
rewrite mp_pinv_path_tall cholA /=; have unitL := cholesky_mx_unit cholA.
rewrite unitmx_mul unitmx_tr unitL /=; congr (Ok (np.NdArray _)).
have symA : symmetric_mx (G^T *m G).
  by have := symmetric_gram G^T; rewrite trmxK.
by rewrite -(cholesky_mx_correct symA cholA) -courrieu_core.
Qed.

Lemma mp_pinv_path_wide_fail m n (G : 'M[R]_(m, n)) :
  ~~ row_free G ->
  mp_pinv_path (exact R) true (np.NdArray G) =
  Raise (LinAlgError msg_not_posdef).
Proof.
rewrite mp_pinv_path_wide; case cholA: (cholesky_mx _) => [L|] // /negP[].
by apply/cholesky_gram; exists L.
Qed.

Lemma mp_pinv_path_tall_fail m n (G : 'M[R]_(m, n)) :
  ~~ row_free G^T ->
  mp_pinv_path (exact R) false (np.NdArray G) =
  Raise (LinAlgError msg_not_posdef).
Proof.
rewrite mp_pinv_path_tall; case cholA: (cholesky_mx _) => [L|] // /negP[].
by apply/cholesky_gram; exists L; rewrite trmxK.
Qed.

Lemma cholesky_gram_fail k p (B : 'M[R]_(k, p)) :
  ~~ row_free B ->
  cholesky (np.NdArray (B *m B^T)) = Raise (LinAlgError msg_not_posdef).
Proof.
rewrite choleskyE; case cholA: (cholesky_mx _) => [L|] // /negP[].
by apply/cholesky_gram; exists L.
Qed.

(** On full rank [mp_pinv] returns the closed form. *)
Lemma mp_pinv_full_rank m n (G : 'M[R]_(m, n)) :
  \rank G = minn m n ->
  mp_pinv (exact R) (np.NdArray G) = Ok (np.NdArray (pinv_mx G)).
Proof.
move=> /eqP; rewrite mp_pinvE /pinv_mx; case: (ltnP m n) => mn full.
  exact: mp_pinv_path_wide_ok.
by apply: mp_pinv_path_tall_ok; rewrite /row_free mxrank_tr.
Qed.

Lemma pinv_mx_moore_penrose m n (G : 'M[R]_(m, n)) :
  \rank G = minn m n -> moore_penrose G (pinv_mx G).
Proof.
move=> /eqP; rewrite /pinv_mx; case: (ltnP m n) => mn full.
  exact/moore_penrose_wide/gram_row_free_unit.
have freeGt : row_free G^T by rewrite /row_free mxrank_tr.
by apply: moore_penrose_tall; have := gram_row_free_unit freeGt; rewrite trmxK.
Qed.

(** Below full rank the factorization raises. *)
Lemma mp_pinv_deficient m n (G : 'M[R]_(m, n)) :
  \rank G != minn m n ->
  mp_pinv (exact R) (np.NdArray G) = Raise (LinAlgError msg_not_posdef).
Proof.
rewrite mp_pinvE; case: (ltnP m n) => mn not_full.
  exact: mp_pinv_path_wide_fail.
by apply: mp_pinv_path_tall_fail; rewrite /row_free mxrank_tr.
Qed.

(** On an invertible square matrix both closed forms are the inverse. *)
Lemma pinv_tall_unit n (G : 'M[R]_n) :
  G \in unitmx -> invmx (G^T *m G) *m G^T = invmx G.
Proof.
move=> unitG; have unitA : G^T *m G \in unitmx.
  by rewrite unitmx_mul unitmx_tr unitG.
by rewrite -[LHS](mulmxK unitG) -(mulmxA _ G^T) mulVmx // mul1mx.
Qed.

Lemma pinv_wide_unit n (G : 'M[R]_n) :
  G \in unitmx -> G^T *m invmx (G *m G^T) = invmx G.
Proof.
move=> unitG; have unitA : G *m G^T \in unitmx.
  by rewrite unitmx_mul unitmx_tr unitG.
by rewrite -[LHS](mulKmx unitG) (mulmxA G) mulmxV // mulmx1.
Qed.

Lemma mp_pinv_path_unit (transpose : bool) n (G : 'M[R]_n) :
  G \in unitmx ->
  mp_pinv_path (exact R) transpose (np.NdArray G) = Ok (np.NdArray (invmx G)).
Proof.
move=> unitG; case: transpose.
  by rewrite mp_pinv_path_wide_ok ?row_free_unit // pinv_wide_unit.
by rewrite mp_pinv_path_tall_ok ?row_free_unit ?unitmx_tr // pinv_tall_unit.
Qed.

(** Transposing a full-rank input transposes the closed form; off the square
    case the two inputs take different paths. *)
Lemma pinv_mx_trmx m n (G : 'M[R]_(m, n)) :
  \rank G = minn m n -> pinv_mx G^T = (pinv_mx G)^T.
Proof.
rewrite /pinv_mx; case: (ltngtP m n) => [_ _|_ _|eq_mn].
- by rewrite trmx_mul trmx_inv trmx_mul !trmxK.
- by rewrite trmx_mul trmx_inv trmx_mul !trmxK.
case: n / eq_mn G => G /eqP; rewrite -/(row_free G) row_free_unit => unitG.
by rewrite !pinv_tall_unit ?unitmx_tr // trmx_inv.
Qed.

Lemma mp_pinv_trmx m n (G : 'M[R]_(m, n)) :
  \rank G = minn m n ->
  mp_pinv (exact R) (np.NdArray G^T) = Ok (np.NdArray (pinv_mx G)^T).
Proof.
move=> full; rewrite -pinv_mx_trmx //; apply: mp_pinv_full_rank.
by rewrite mxrank_tr minnC.
Qed.

(** The shape of what either path returns. *)
Lemma mp_pinv_path_shape (transpose : bool) (G Y : np.ndarray R) :
  mp_pinv_path (exact R) transpose G = Ok Y ->
  np.shape Y = (np.cols G, np.rows G).
Proof.
case: G => m n G; case: transpose.
  rewrite mp_pinv_path_wide; case: (cholesky_mx _) => [L|] //=.
  by case: ifP => // _ [<-].
rewrite mp_pinv_path_tall; case: (cholesky_mx _) => [L|] //=.
by case: ifP => // _ [<-].
Qed.

End PinvTheory.


(** ** The contract of [mp_pinv] *)

Section PinvContract.

Variable R : rcfType.

Import np.linalg.

(** C1: on a full-rank [G] of any shape, [mp_pinv] returns a matrix [Y] that
    satisfies the four Moore-Penrose identities [G Y G = G], [Y G Y = Y],
    [(G Y)^T = G Y] and [(Y G)^T = Y G] (exact arithmetic). *)
Theorem mp_pinv_moore_penrose m n (G : 'M[R]_(m, n)) :
  \rank G = minn m n ->
  exists2 Y : 'M[R]_(n, m),
    mp_pinv (exact R) (np.NdArray G) = Ok (np.NdArray Y) &
    [/\ G *m Y *m G = G, Y *m G *m Y = Y,
        (G *m Y)^T = G *m Y & (Y *m G)^T = Y *m G].
Proof.
move=> full; exists (pinv_mx G); first exact: mp_pinv_full_rank.
exact: pinv_mx_moore_penrose.
Qed.


(** C3: when [mp_pinv] returns on an input of shape [(m, n)], the result has
    shape [(n, m)], on the wide path and on the tall or square one. *)
Theorem mp_pinv_shape (G Y : np.ndarray R) (m n : nat) :
  np.shape G = (m, n) -> mp_pinv (exact R) G = Ok Y -> np.shape Y = (n, m).
Proof.
by move=> [<- <-]; rewrite /mp_pinv /=; apply: mp_pinv_path_shape.
Qed.

(** C5, under exact arithmetic: on a rank-deficient [G], the factorization of
    the Gram matrix raises and [mp_pinv] returns no matrix. *)
Theorem mp_pinv_rank_deficient m n (G : 'M[R]_(m, n)) :
  (\rank G < minn m n)%N ->
  [/\ mp_pinv (exact R) (np.NdArray G) = Raise (LinAlgError msg_not_posdef),
      forall Y, mp_pinv (exact R) (np.NdArray G) <> Ok Y
    & exists2 A, mp_pinv_gram (exact R) (m < n)%N (np.NdArray G) = Ok A &
                 cholesky A = Raise (LinAlgError msg_not_posdef)].
Proof.
move=> deficient; have not_full : \rank G != minn m n by rewrite ltn_eqF.
have failG := mp_pinv_deficient not_full; split=> //; first by rewrite failG.
move: not_full; rewrite /mp_pinv_gram /np.T /=.
case: (ltnP m n) => mn not_full; rewrite matmulE.
  by exists (np.NdArray (G *m G^T)); last exact: cholesky_gram_fail.
exists (np.NdArray (G^T *m G)) => //.
have := @cholesky_gram_fail _ _ _ G^T.
by rewrite trmxK /row_free mxrank_tr; apply.
Qed.

(** C6: on a square full-rank [G], the pseudoinverse of the transpose is the
    transpose of the pseudoinverse, and the direct path on [G] agrees with the
    transpose path on [G^T] up to transposition. *)
Theorem mp_pinv_transpose_square n (G : 'M[R]_n) :
  \rank G = n ->
  exists2 Y : 'M[R]_n,
    mp_pinv (exact R) (np.NdArray G) = Ok (np.NdArray Y) /\
    mp_pinv (exact R) (np.NdArray G^T) = Ok (np.NdArray Y^T) &
    mp_pinv_path (exact R) false (np.NdArray G) = Ok (np.NdArray Y) /\
    mp_pinv_path (exact R) true (np.NdArray G^T) = Ok (np.NdArray Y^T).
Proof.
move=> /eqP; rewrite -/(row_free G) row_free_unit => unitG.
have unitGt : G^T \in unitmx by rewrite unitmx_tr.
by exists (invmx G); rewrite ?mp_pinvE trmx_inv !mp_pinv_path_unit.
Qed.

End PinvContract.

(** ** Failure modes *)

Section PinvFailure.

Variable R : rcfType.

Import np.linalg.

Lemma tilted_mx_unit (eps : R) : eps != 0 -> tilted_mx eps \in unitmx.
Proof.
move=> eps_neq0.
pose B : 'M[R]_2 :=
  \matrix_(i, j) if (i : nat) == 0%N
                 then (if (j : nat) == 0%N then - eps^-1 else eps^-1)
                 else (if (j : nat) == 0%N then 1 else 0).
suff /mulmx1_unit[] : tilted_mx eps *m B = 1%:M by [].
apply/matrixP=> i j; rewrite !mxE !big_ord_recl big_ord0 !mxE /=.
case: i => [[|[|i]] lt_i] //; case: j => [[|[|j]] lt_j] //=.
- by rewrite mul0r mul1r add0r addr0.
- by rewrite mul0r mulr0 !addr0.
- by rewrite mulrN divff // mul1r addr0 addNr.
- by rewrite divff // mulr0 !addr0.
Qed.

(** A positive definite Gram matrix lets [mp_pinv] return ... *)
Lemma gram_posdef_returns m n (G : 'M[R]_(m, n)) :
  gram_posdef G -> exists Y, mp_pinv (exact R) (np.NdArray G) = Ok Y.
Proof.
have symG := symmetric_gram G; have := symmetric_gram G^T.
rewrite trmxK => symGt; rewrite mp_pinvE /gram_posdef.
case: (ltnP m n) => _ pd.
  have [L cholA] := cholesky_mx_posdef symG pd.
  rewrite mp_pinv_path_wide cholA /=.
  by rewrite unitmx_mul unitmx_tr (cholesky_mx_unit cholA) /=; eexists.
have [L cholA] := cholesky_mx_posdef symGt pd.
rewrite mp_pinv_path_tall cholA /=.
by rewrite unitmx_mul unitmx_tr (cholesky_mx_unit cholA) /=; eexists.
Qed.

(** ... and any other Gram matrix makes the factorization raise. *)
Lemma gram_not_posdef_raises m n (G : 'M[R]_(m, n)) :
  ~ gram_posdef G ->
  mp_pinv (exact R) (np.NdArray G) = Raise (LinAlgError msg_not_posdef) /\
  exists2 A, mp_pinv_gram (exact R) (m < n)%N (np.NdArray G) = Ok A &
             cholesky A = Raise (LinAlgError msg_not_posdef).
Proof.
have symG := symmetric_gram G; have := symmetric_gram G^T.
rewrite trmxK => symGt; rewrite mp_pinvE /gram_posdef.
case: (ltnP m n) => _ not_pd.
  have cholA : cholesky_mx (G *m G^T) = None.
    case cholA: (cholesky_mx _) => [L|] //.
    by case: not_pd; apply/(cholesky_mxP symG); exists L.
  split; first by rewrite mp_pinv_path_wide cholA.
  exists (np.NdArray (G *m G^T)); last by rewrite choleskyE cholA.
  by rewrite /mp_pinv_gram /np.T /= matmulE.
have cholA : cholesky_mx (G^T *m G) = None.
  case cholA: (cholesky_mx _) => [L|] //.
  by case: not_pd; apply/(cholesky_mxP symGt); exists L.
split; first by rewrite mp_pinv_path_tall cholA.
exists (np.NdArray (G^T *m G)); last by rewrite choleskyE cholA.
by rewrite /mp_pinv_gram /np.T /= matmulE.
Qed.

(** C4, as the code has it.  Under exact arithmetic [mp_pinv] has one failure
    mode: it raises [LinAlgError], "Matrix is not positive definite", from the
    factorization, exactly when the Gram matrix is not positive definite, and
    returns otherwise; the inner inverse never raises there.  On binary64 the
    inner inverse does raise, on an input of full rank: for the matrix with
    rows [(0, 1)] and [(1e-8, 1)], which [mp_pinv] inverts under exact
    arithmetic whatever nonzero number stands for [1e-8], the factorization
    returns [L], [L^T L] rounds to a singular matrix and [np.linalg.inv]
    raises [LinAlgError], "Singular matrix".  The two exceptions have the same
    class, are caught by the same [except] clauses and differ by their
    message only. *)
Theorem mp_pinv_failure_modes m n (G : 'M[R]_(m, n)) :
  [/\ ~ gram_posdef G ->
      mp_pinv (exact R) (np.NdArray G) = Raise (LinAlgError msg_not_posdef) /\
      exists2 A, mp_pinv_gram (exact R) (m < n)%N (np.NdArray G) = Ok A &
                 cholesky A = Raise (LinAlgError msg_not_posdef),
      gram_posdef G -> exists Y, mp_pinv (exact R) (np.NdArray G) = Ok Y,
      forall e, mp_pinv (exact R) (np.NdArray G) = Raise e ->
        e = LinAlgError msg_not_posdef /\ ~ gram_posdef G,
      (forall eps : R, eps != 0 ->
         exists Y, mp_pinv (exact R) (np.NdArray (tilted_mx eps)) = Ok Y) /\
      (exists A L LtL,
         [/\ mp_pinv_gram binary64 (2 < 2)%N tilted_example = Ok A,
             np64.linalg.cholesky A = Ok L,
             np64.matmul (np64.T L) L = Ok LtL,
             np64.linalg.inv LtL = Raise (LinAlgError msg_singular)
           & mp_pinv binary64 tilted_example =
               Raise (LinAlgError msg_singular)])
    & [/\ class_of (LinAlgError msg_not_posdef) =
            class_of (LinAlgError msg_singular),
          forall c, isinstance (LinAlgError msg_not_posdef) c =
                    isinstance (LinAlgError msg_singular) c
        & message_of (LinAlgError msg_not_posdef) <>
          message_of (LinAlgError msg_singular)]].
Proof.
split=> //.
- exact: gram_not_posdef_raises.
- exact: gram_posdef_returns.
- move=> e raises; have not_pd : ~ gram_posdef G.
    by move=> /gram_posdef_returns[Y]; rewrite raises.
  by have [] := gram_not_posdef_raises not_pd; rewrite raises => -[->].
- split=> [eps eps_neq0|].
    exists (np.NdArray (invmx (tilted_mx eps))).
    by rewrite mp_pinvE mp_pinv_path_unit // tilted_mx_unit.
  by do 3!eexists; split; vm_compute; reflexivity.
Qed.

(** Under exact arithmetic the inner inverse never fails: a factor that exists
    is invertible. *)
Lemma mp_pinv_never_singular (G : np.ndarray R) :
  mp_pinv (exact R) G <> Raise (LinAlgError msg_singular).
Proof.
case: G => m n G; rewrite mp_pinvE; case: (m < n)%N.
  rewrite mp_pinv_path_wide; case cholA: (cholesky_mx _) => [L|] //=.
  by rewrite unitmx_mul unitmx_tr (cholesky_mx_unit cholA).
rewrite mp_pinv_path_tall; case cholA: (cholesky_mx _) => [L|] //=.
by rewrite unitmx_mul unitmx_tr (cholesky_mx_unit cholA).
Qed.

End PinvFailure.

(** ** The contract at concrete inputs *)

Lemma rank_wide_example : \rank wide_example = minn 2 3.
Proof. by rewrite /wide_example rank_pid_mx. Qed.

Lemma rank_square_example : \rank square_example = 2.
Proof. exact: mxrank1. Qed.

Lemma rank_deficient_example : (\rank deficient_example < minn 2 2)%N.
Proof.
have -> : deficient_example = (const_mx 1 : 'cV_2) *m (const_mx 1 : 'rV_2).
  apply/matrixP=> i j; rewrite !mxE big_ord_recl big_ord0 !mxE.
  by rewrite mulr1 addr0.
apply: (@leq_ltn_trans (\rank (const_mx 1 : 'rV[algR]_2))).
  exact: mxrankM_maxr.
exact: rank_leq_row.
Qed.

Lemma gram_posdef_square_example : gram_posdef square_example.
Proof.
rewrite /gram_posdef /=; have := @posdef_gram _ _ _ square_example^T.
by rewrite trmxK; apply; rewrite row_free_unit unitmx_tr unitmx1.
Qed.

Lemma mp_pinv_failure_modes_example :
  [/\ ~ gram_posdef deficient_example,
      mp_pinv (exact algR) (np.NdArray deficient_example) =
        Raise (LinAlgError msg_not_posdef) /\
      (exists2 A,
         mp_pinv_gram (exact algR) (2 < 2)%N (np.NdArray deficient_example) =
           Ok A &
         np.linalg.cholesky A = Raise (LinAlgError msg_not_posdef)),
      gram_posdef square_example
    & exists Y, mp_pinv (exact algR) (np.NdArray square_example) = Ok Y].
Proof.
have raises : mp_pinv (exact algR) (np.NdArray deficient_example) =
    Raise (LinAlgError msg_not_posdef).
  by apply: mp_pinv_deficient; rewrite ltn_eqF // rank_deficient_example.
have [from_cholesky _ only _ _] := mp_pinv_failure_modes deficient_example.
have [_ not_pd] := only _ raises.
have [_ returns _ _ _] := mp_pinv_failure_modes square_example.
split; [exact: not_pd | exact: from_cholesky not_pd | | ].
  exact: gram_posdef_square_example.
exact: returns gram_posdef_square_example.
Defined.

Lemma mp_pinv_moore_penrose_wide_example :
  exists2 Y : 'M[algR]_(3, 2),
    mp_pinv (exact algR) (np.NdArray wide_example) = Ok (np.NdArray Y) &
    [/\ wide_example *m Y *m wide_example = wide_example,
        Y *m wide_example *m Y = Y,
        (wide_example *m Y)^T = wide_example *m Y
      & (Y *m wide_example)^T = Y *m wide_example].
Proof. exact: mp_pinv_moore_penrose rank_wide_example. Defined.


Lemma mp_pinv_shape_wide_example :
  exists Y : np.ndarray algR,
    [/\ np.shape (np.NdArray wide_example) = (2, 3)%N,
        mp_pinv (exact algR) (np.NdArray wide_example) = Ok Y
      & np.shape Y = (3, 2)%N].
Proof.
exists (np.NdArray (pinv_mx wide_example)).
have returns := mp_pinv_full_rank rank_wide_example.
by split; [ | exact: returns | exact: mp_pinv_shape returns].
Defined.

Lemma mp_pinv_rank_deficient_example :
  [/\ mp_pinv (exact algR) (np.NdArray deficient_example) =
        Raise (LinAlgError msg_not_posdef),
      forall Y, mp_pinv (exact algR) (np.NdArray deficient_example) <> Ok Y
    & exists2 A,
        mp_pinv_gram (exact algR) (2 < 2)%N (np.NdArray deficient_example) =
          Ok A &
        np.linalg.cholesky A = Raise (LinAlgError msg_not_posdef)].
Proof. exact: mp_pinv_rank_deficient rank_deficient_example. Defined.

Lemma mp_pinv_transpose_square_example :
  exists2 Y : 'M[algR]_2,
    mp_pinv (exact algR) (np.NdArray square_example) = Ok (np.NdArray Y) /\
    mp_pinv (exact algR) (np.NdArray square_example^T) = Ok (np.NdArray Y^T) &
    mp_pinv_path (exact algR) false (np.NdArray square_example) =
      Ok (np.NdArray Y) /\
    mp_pinv_path (exact algR) true (np.NdArray square_example^T) =
      Ok (np.NdArray Y^T).
Proof. exact: mp_pinv_transpose_square rank_square_example. Defined.

(** ** The store: [mp_pinv] only allocates *)

Section HeapTheory.

Variable R : rcfType.

Implicit Types (h : Heap.heap R) (x y : Heap.ref).

Lemma np_TK (a : np.ndarray R) : np.T (np.T a) = a.
Proof. by case: a => m n A; rewrite /np.T /= trmxK. Qed.

Lemma deref_T h x : Heap.deref h (Heap.T x) = np.T (Heap.deref h x).
Proof.
by rewrite /Heap.deref /=; case: (Heap.transposed x); rewrite /= ?np_TK.
Qed.

Lemma valid_T h x : Heap.valid h (Heap.T x) = Heap.valid h x.
Proof. by []. Qed.

Lemma valid_cat h t x : Heap.valid h x -> Heap.valid (h ++ t) x.
Proof.
by rewrite /Heap.valid size_cat => /leq_trans-> //; rewrite leq_addr.
Qed.

Lemma deref_cat h t x :
  Heap.valid h x -> Heap.deref (h ++ t) x = Heap.deref h x.
Proof. by rewrite /Heap.valid /Heap.deref nth_cat => ->. Qed.

Lemma simulates_returning (p : result (np.ndarray R)) h :
  Heap.simulates (Heap.returning p) p h.
Proof.
rewrite /Heap.simulates /Heap.returning; case: p => [a|e] /=; last first.
  by split=> //; exists [::]; rewrite cats0.
split; first by exists [:: a]; rewrite cats1.
by rewrite /Heap.valid /Heap.deref /= size_rcons nth_rcons ltnn eqxx leqnn.
Qed.

Lemma simulates_bind (c : Heap.M R Heap.ref) (p : result (np.ndarray R))
    (k : Heap.ref -> Heap.M R Heap.ref)
    (kp : np.ndarray R -> result (np.ndarray R)) h :
  Heap.simulates c p h ->
  (forall t y, Heap.valid (h ++ t) y ->
     Heap.simulates (k y) (kp (Heap.deref (h ++ t) y)) (h ++ t)) ->
  Heap.simulates (Heap.bindM c k) (bind p kp) h.
Proof.
rewrite /Heap.simulates /Heap.bindM.
case: (c h) => [[y|e] h1]; case: p => [a|e'] //= [[t ->]] //.
case=> valid_y fresh_y <- /(_ t y valid_y).
case: (k y (h ++ t)) => r h2 [[t2 ->] sim_k].
split; first by exists (t ++ t2); rewrite catA.
case: r sim_k => [z|e]; case: (kp _) => // b [valid_z fresh_z deref_z].
by split=> //; apply: leq_trans fresh_z; rewrite size_cat leq_addr.
Qed.

Lemma simulates_matmul h x y :
  Heap.simulates (Heap.matmul x y)
    (np.matmul (Heap.deref h x) (Heap.deref h y)) h.
Proof.
exact: (simulates_returning (np.matmul (Heap.deref h x) (Heap.deref h y)) h).
Qed.

Lemma simulates_cholesky h x :
  Heap.simulates (Heap.cholesky x) (np.linalg.cholesky (Heap.deref h x)) h.
Proof.
exact: (simulates_returning (np.linalg.cholesky (Heap.deref h x)) h).
Qed.

Lemma simulates_inv h x :
  Heap.simulates (Heap.inv x) (np.linalg.inv (Heap.deref h x)) h.
Proof. exact: (simulates_returning (np.linalg.inv (Heap.deref h x)) h). Qed.

Lemma simulates_shape h x (k : nat * nat -> Heap.M R Heap.ref)
    (p : result (np.ndarray R)) :
  Heap.simulates (k (np.shape (Heap.deref h x))) p h ->
  Heap.simulates (Heap.bindM (Heap.shape x) k) p h.
Proof. by []. Qed.

(** Arrays made before a call are still there, unchanged, after it: move
    every fact about the old store to the store extended by [t]. *)
Ltac carry t :=
  repeat match goal with
  | v : is_true (Heap.valid ?h0 ?x) |- _ =>
      lazymatch h0 with
      | (_ ++ t) => fail
      | _ => rewrite -?(deref_cat t v); apply (valid_cat t) in v
      end
  end.

(** One call of the body, on both sides. *)
Ltac step :=
  let t := fresh "t" in
  let y := fresh "y" in
  let vy := fresh "vy" in
  let vyT := fresh "vyT" in
  rewrite -?deref_T;
  first [ apply: (simulates_bind (simulates_matmul _ _ _))
        | apply: (simulates_bind (simulates_cholesky _ _))
        | apply: (simulates_bind (simulates_inv _ _)) ];
  move=> t y vy; carry t;
  have vyT : is_true (Heap.valid _ (Heap.T y)) := vy.

(** The store version computes what the pure version computes. *)
Lemma mp_pinv_simulates h G :
  Heap.valid h G ->
  Heap.simulates (mp_pinv (Heap.store R) G)
    (mp_pinv (exact R) (Heap.deref h G)) h.
Proof.
move=> vG; have vGT : Heap.valid h (Heap.T G) := vG.
apply: simulates_shape; rewrite /mp_pinv /np.shape /=.
case: (_ < _)%N; rewrite /mp_pinv_path /mp_pinv_gram /=.
  by do 7!step; rewrite -?deref_T; apply: simulates_matmul.
by do 7!step; rewrite -?deref_T; apply: simulates_matmul.
Qed.

End HeapTheory.

(** C7: [mp_pinv] changes no buffer that exists when it is called, the one of
    its argument included: the store after the call is the store before it
    with buffers appended, the result lives in one of the new buffers, and it
    is the result the pure function computes. *)
Theorem mp_pinv_frame (R : rcfType) (h : Heap.heap R) (G : Heap.ref) :
  Heap.valid h G ->
  let: (r, h') := mp_pinv (Heap.store R) G h in
  [/\ exists t, h' = h ++ t,
      Heap.deref h' G = Heap.deref h G,
      forall x, Heap.valid h x -> Heap.deref h' x = Heap.deref h x,
      if r is Ok Y then Heap.valid h' Y && ~~ Heap.valid h Y else true
    & match r, mp_pinv (exact R) (Heap.deref h G) with
      | Ok Y, Ok a => Heap.deref h' Y = a
      | Raise e, Raise e' => e = e'
      | _, _ => False
      end].
Proof.
move=> vG; have := mp_pinv_simulates vG; rewrite /Heap.simulates.
case: (mp_pinv (Heap.store R) G h) => r h' [[t ->] sim]; split.
- by exists t.
- exact: deref_cat.
- by move=> x; apply: deref_cat.
- case: r sim => // Y; case: (mp_pinv (exact R) _) => // a [-> fresh _].
  by rewrite /Heap.valid -leqNgt.
- by case: r sim => [Y|e]; case: (mp_pinv (exact R) _) => // a [].
Qed.

Lemma mp_pinv_frame_example :
  let: (r, h') := mp_pinv (Heap.store algR) ref_example store_example in
  [/\ exists t, h' = store_example ++ t,
      Heap.deref h' ref_example = Heap.deref store_example ref_example,
      forall x, Heap.valid store_example x ->
                Heap.deref h' x = Heap.deref store_example x,
      if r is Ok Y then Heap.valid h' Y && ~~ Heap.valid store_example Y
      else true
    & match r, mp_pinv (exact algR) (Heap.deref store_example ref_example) with
      | Ok Y, Ok a => Heap.deref h' Y = a
      | Raise e, Raise e' => e = e'
      | _, _ => False
      end].
Proof. exact: (@mp_pinv_frame algR store_example ref_example isT). Defined.

(** ** The ELM caller *)

Section ELMTheory.

Import Stdlib.Reals.Reals Stdlib.Floats.Floats Stdlib.ZArith.ZArith.

Local Open Scope R_scope.

Lemma SFcompare_Lt_Gt (a b : spec_float) :
  SFcompare a b = Some Lt -> SFcompare b a = Some Gt.
Proof.
case: a => [sa|sa| |sa ma ea]; case: b => [sb|sb| |sb mb eb] //=;
  try (by case: sa); try (by case: sb); try (by case: sa; case: sb).
have -> : (eb ?= ea)%Z = CompOpp (ea ?= eb)%Z by exact: Z.compare_antisym.
have -> : Pos.compare_cont Eq mb ma = CompOpp (Pos.compare_cont Eq ma mb).
  by rewrite Pos.compare_cont_antisym.
by case: sa; case: sb => //; case: (ea ?= eb)%Z => //=;
   case: (Pos.compare_cont _ _ _).
Qed.

Lemma ltb_leb_false (x y : float) :
  PrimFloat.ltb x y = true -> PrimFloat.leb y x = false.
Proof.
rewrite ltb_spec leb_spec /SFltb /SFleb.
case E: (SFcompare _ _) => [[]|] // _.
by rewrite (SFcompare_Lt_Gt E).
Qed.

Lemma YpredE p q (testY : 'M[float]_(p, q)) i j :
  ELM.Ypred testY i j =
  if PrimFloat.leb (testY i j) 0.5%float then 0%Z else 1%Z.
Proof. by rewrite /ELM.Ypred /ELM.where_ /ELM.le_scalar !mxE. Qed.

(** C8: the classifier thresholds at 0.5: an entry above 0.5 is labelled 1,
    an entry at most 0.5 is labelled 0, and 0.5 itself is labelled 0. *)
Theorem Ypred_threshold p q (testY : 'M[float]_(p, q)) i j :
  [/\ PrimFloat.ltb 0.5%float (testY i j) = true -> ELM.Ypred testY i j = 1%Z,
      PrimFloat.leb (testY i j) 0.5%float = true -> ELM.Ypred testY i j = 0%Z
    & testY i j = 0.5%float -> ELM.Ypred testY i j = 0%Z].
Proof.
by rewrite YpredE; split=> [/ltb_leb_false->|->|->].
Qed.

(** A score that is not a number fails the comparison and is labelled 1. *)
Lemma Ypred_nan p q (testY : 'M[float]_(p, q)) i j :
  testY i j = PrimFloat.nan -> ELM.Ypred testY i j = 1%Z.
Proof. by rewrite YpredE => ->. Qed.

(** C9: every label is 0 or 1, whatever the score, NaN included. *)
Theorem Ypred_binary p q (testY : 'M[float]_(p, q)) i j :
  ELM.Ypred testY i j = 0%Z \/ ELM.Ypred testY i j = 1%Z.
Proof. by rewrite YpredE; case: (PrimFloat.leb _ _); [left | right]. Qed.



End ELMTheory.

(** ** Binary64: rounding lets a singular Gram matrix factor *)

Section Binary64Theory.

Import Stdlib.Floats.Floats.

Local Open Scope float_scope.

(** C5, as stated, fails on binary64: the all-ones matrix of size two has rank
    one, yet rounding leaves the second pivot of the factorization positive
    ([2 - 1.4142135623730949 * 1.4142135623730949] is [4.44e-16]), so the
    Cholesky step returns a factor and [mp_pinv] returns a matrix. *)
Lemma mp_pinv_binary64_ones :
  [/\ mp_pinv_gram binary64 (2 < 2)%N ones_example =
        Ok [:: [:: 2; 2]; [:: 2; 2]],
      np64.linalg.cholesky [:: [:: 2; 2]; [:: 2; 2]] =
        Ok [:: [:: 1.4142135623730951; 0];
               [:: 1.4142135623730949; 2.1073424255447017e-08]]
    & exists Y, mp_pinv binary64 ones_example = Ok Y].
Proof.
split; [by vm_compute | by vm_compute | ].
by exists [:: [:: -0.25; -0.25]; [:: 0.25; 0.25]]; vm_compute.
Qed.

(** C4, as stated, fails: the exception a caller receives for a singular
    input and the one the inverse step raises on a singular matrix have the
    same class; and on binary64 a Gram matrix that is not positive definite
    (the one of the all-ones matrix) is factored without any exception. *)
Lemma linalg_errors_same_class :
  [/\ mp_pinv (exact algR) (np.NdArray (0 : 'M[algR]_1)) =
        Raise (LinAlgError msg_not_posdef),
      np.linalg.inv (np.NdArray (0 : 'M[algR]_1)) =
        Raise (LinAlgError msg_singular),
      class_of (LinAlgError msg_not_posdef) =
        class_of (LinAlgError msg_singular)
    & exists L, np64.linalg.cholesky [:: [:: 2; 2]; [:: 2; 2]] = Ok L].
Proof.
split=> //; first by apply: mp_pinv_deficient; rewrite mxrank0.
  by rewrite invE unitmxE det0 unitr0.
by eexists; vm_compute; reflexivity.
Qed.


End Binary64Theory.

Section Binary64Rounding.

Import Stdlib.Floats.Floats Stdlib.ZArith.ZArith.

Local Open Scope float_scope.

(** The pivot is positive however the step is rounded: dividing by the root
    gives the same scaled entry as scaling by the reciprocal, and the exact
    square of that entry, a multiple of a power of two, is below two, so an
    update fused into one rounding is positive too. *)
Lemma binary64_pivot_positive :
  [/\ (0 <? 2 - (2 * (1 / sqrt 2)) * (2 * (1 / sqrt 2))) = true,
      2 / sqrt 2 = 2 * (1 / sqrt 2)
    & match Prim2SF (2 * (1 / sqrt 2)) with
      | S754_finite false m e =>
          (Z.pos m * Z.pos m <? 2 * 2 ^ (- (2 * e)))%Z
      | _ => false
      end = true].
Proof. by split; vm_compute. Qed.

End Binary64Rounding.

(** * Beyond the contract *)

(** ** More algebra of [mp_pinv] *)

Section PinvAlgebra.

Variable R : rcfType.

Import np.linalg.

Local Arguments mp_pinv : simpl never.

(** Two matrices that satisfy the four identities for the same [G] are
    equal. *)
Lemma moore_penrose_unique m n (G : 'M[R]_(m, n)) (Y Z : 'M[R]_(n, m)) :
  moore_penrose G Y -> moore_penrose G Z -> Y = Z.
Proof.
move=> [GYG YGY symGY symYG] [GZG ZGZ symGZ symZG].
have GY_GZ : G *m Y = G *m Z.
  have QP : G *m Y = G *m Z *m (G *m Y) by rewrite mulmxA GZG.
  rewrite -symGY {1}QP trmx_mul symGY symGZ.
  by rewrite mulmxA GYG.
have YG_ZG : Y *m G = Z *m G.
  have QP : Z *m G = Z *m G *m (Y *m G) by rewrite -mulmxA (mulmxA G) GYG.
  rewrite -symZG {1}QP trmx_mul symYG symZG.
  by rewrite -mulmxA (mulmxA G) GZG.
by rewrite -YGY -mulmxA GY_GZ mulmxA YG_ZG ZGZ.
Qed.

(** The identities are symmetric in [G] and [Y]. *)
Lemma moore_penrose_sym m n (G : 'M[R]_(m, n)) (Y : 'M[R]_(n, m)) :
  moore_penrose G Y -> moore_penrose Y G.
Proof. by case. Qed.

Lemma moore_penrose_rank m n (G : 'M[R]_(m, n)) (Y : 'M[R]_(n, m)) :
  moore_penrose G Y -> \rank Y = \rank G.
Proof.
case=> GYG YGY _ _; apply/eqP; rewrite eqn_leq; apply/andP; split.
  rewrite -[X in (\rank X <= _)%N]YGY.
  by rewrite (leq_trans (mxrankM_maxl _ _)) ?mxrankM_maxr.
rewrite -[X in (\rank X <= _)%N]GYG.
by rewrite (leq_trans (mxrankM_maxl _ _)) ?mxrankM_maxr.
Qed.

(** On full row rank the closed form is a right inverse, on full column rank
    a left inverse. *)
Lemma pinv_mx_right m n (G : 'M[R]_(m, n)) :
  row_free G -> G *m pinv_mx G = 1%:M.
Proof.
move=> freeG; rewrite /pinv_mx; case: (ltnP m n) => mn.
  by rewrite mulmxA mulmxV // gram_row_free_unit.
have eq_mn : m = n.
  by apply/eqP; rewrite eqn_leq mn andbT -(eqP freeG) rank_leq_col.
case: n / eq_mn G freeG {mn} => G; rewrite row_free_unit => unitG.
by rewrite pinv_tall_unit // mulmxV.
Qed.

Lemma pinv_mx_left m n (G : 'M[R]_(m, n)) :
  row_free G^T -> pinv_mx G *m G = 1%:M.
Proof.
move=> freeG; rewrite /pinv_mx; case: (ltnP m n) => mn; last first.
  rewrite -mulmxA mulVmx //.
  by have := gram_row_free_unit freeG; rewrite trmxK.
have := rank_leq_col G^T; rewrite (eqP freeG) => nm.
by move: (leq_trans mn nm); rewrite ltnn.
Qed.

(** X1: whatever the input, the only exception [mp_pinv] raises is the
    [LinAlgError] of the factorization, "Matrix is not positive definite", and
    it raises it only below full rank: the inverse step never raises and no
    product is ill-shaped (exact arithmetic). *)
Theorem mp_pinv_only_failure m n (G : 'M[R]_(m, n)) (e : exception) :
  mp_pinv (exact R) (np.NdArray G) = Raise e ->
  e = LinAlgError msg_not_posdef /\ (\rank G < minn m n)%N.
Proof.
have rank_le : (\rank G <= minn m n)%N.
  by rewrite leq_min rank_leq_row rank_leq_col.
case: (eqVneq (\rank G) (minn m n)) => [full|not_full].
  by rewrite mp_pinv_full_rank.
rewrite mp_pinv_deficient // => -[<-]; split=> //.
by rewrite ltn_neqAle not_full.
Qed.

(** X2: on a full-rank [G] the result [Y] of [mp_pinv] is a one-sided
    inverse: [G Y] is the identity when [G] has no more rows than columns,
    [Y G] is the identity when it has no more columns than rows. *)
Theorem mp_pinv_one_sided_inverse m n (G : 'M[R]_(m, n)) :
  \rank G = minn m n ->
  exists2 Y : 'M[R]_(n, m),
    mp_pinv (exact R) (np.NdArray G) = Ok (np.NdArray Y) &
    ((m <= n)%N -> G *m Y = 1%:M) /\ ((n <= m)%N -> Y *m G = 1%:M).
Proof.
move=> full; exists (pinv_mx G); first exact: mp_pinv_full_rank.
split=> [/minn_idPl mn|/minn_idPr nm].
  by apply: pinv_mx_right; rewrite /row_free full mn.
by apply: pinv_mx_left; rewrite /row_free mxrank_tr full nm.
Qed.

(** X3: whenever [np.linalg.inv(G)] returns, [mp_pinv(G)] returns the same
    matrix: on an invertible matrix the pseudoinverse is the inverse. *)
Theorem mp_pinv_inverse (G Ginv : np.ndarray R) :
  inv G = Ok Ginv -> mp_pinv (exact R) G = Ok Ginv.
Proof.
case: G => m n G; rewrite /inv [np.rows _]/= [np.cols _]/= [np.data _]/=.
case: eqP => // eq_mn; case: n / eq_mn G => G; rewrite conform_mx_id.
by case: ifP => // unitG [<-]; rewrite mp_pinvE mp_pinv_path_unit.
Qed.

(** X4: on a full-rank [G], any matrix [Z] that satisfies the four
    Moore-Penrose identities for [G] is the matrix [mp_pinv] returns. *)
Theorem mp_pinv_unique m n (G : 'M[R]_(m, n)) (Z : 'M[R]_(n, m)) :
  \rank G = minn m n -> moore_penrose G Z ->
  mp_pinv (exact R) (np.NdArray G) = Ok (np.NdArray Z).
Proof.
move=> full mpZ; rewrite mp_pinv_full_rank //; congr (Ok (np.NdArray _)).
exact: moore_penrose_unique (pinv_mx_moore_penrose full) mpZ.
Qed.

(** X5: on a full-rank [G], applying [mp_pinv] to its own result gives [G]
    back. *)
Theorem mp_pinv_involutive m n (G : 'M[R]_(m, n)) :
  \rank G = minn m n ->
  bind (mp_pinv (exact R) (np.NdArray G)) (mp_pinv (exact R)) =
  Ok (np.NdArray G).
Proof.
move=> full; rewrite mp_pinv_full_rank //=.
have mpY := pinv_mx_moore_penrose full.
have fullY : \rank (pinv_mx G) = minn n m.
  by rewrite (moore_penrose_rank mpY) full minnC.
rewrite mp_pinv_full_rank //; congr (Ok (np.NdArray _)).
apply: moore_penrose_unique (pinv_mx_moore_penrose fullY) _.
exact: moore_penrose_sym.
Qed.

(** X6: on a full-rank [G] of any shape, [mp_pinv(G.T)] is the transpose of
    [mp_pinv(G)]; the call on [G] runs the path chosen by [m < n], the call on
    [G.T] the one chosen by [n < m], so off the square case the two calls run
    different paths. *)
Theorem mp_pinv_transpose m n (G : 'M[R]_(m, n)) :
  \rank G = minn m n ->
  exists2 Y : np.ndarray R,
    mp_pinv_path (exact R) (m < n)%N (np.NdArray G) = Ok Y /\
    mp_pinv_path (exact R) (n < m)%N (np.T (np.NdArray G)) = Ok (np.T Y) &
    mp_pinv (exact R) (np.NdArray G) = Ok Y /\
    mp_pinv (exact R) (np.T (np.NdArray G)) = Ok (np.T Y).
Proof.
move=> full; exists (np.NdArray (pinv_mx G)).
  by rewrite -!mp_pinvE mp_pinv_full_rank // /np.T /= mp_pinv_trmx.
by rewrite mp_pinv_full_rank // /np.T /= mp_pinv_trmx.
Qed.

(** X7: the test [m < n] is needed: on an input that is not square, the path
    [mp_pinv] does not take forms the larger Gram matrix, which is singular,
    and raises from the factorization whatever the rank of the input. *)
Theorem mp_pinv_other_path m n (G : 'M[R]_(m, n)) :
  m != n ->
  mp_pinv_path (exact R) (~~ (m < n)%N) (np.NdArray G) =
  Raise (LinAlgError msg_not_posdef).
Proof.
rewrite neq_ltn => /orP[mn|nm].
  rewrite mn /=; apply: mp_pinv_path_tall_fail.
  by rewrite /row_free mxrank_tr neq_ltn (leq_ltn_trans (rank_leq_row G)).
rewrite ltnNge (ltnW nm) /=; apply: mp_pinv_path_wide_fail.
by rewrite /row_free neq_ltn (leq_ltn_trans (rank_leq_col G)).
Qed.

(** X8: an input without rows or without columns is not an error: [mp_pinv]
    returns the array without entries of the transposed shape. *)
Theorem mp_pinv_empty m n (G : 'M[R]_(m, n)) :
  (m == 0%N) || (n == 0%N) ->
  mp_pinv (exact R) (np.NdArray G) = Ok (np.NdArray (0 : 'M[R]_(n, m))).
Proof.
move=> empty; have G0 : G = 0.
  case/orP: empty => /eqP eq0; move: G; rewrite eq0 => G.
    exact: flatmx0.
  exact: thinmx0.
have min0 : minn m n = 0%N.
  by case/orP: empty => /eqP->; rewrite ?min0n ?minn0.
rewrite G0 mp_pinv_full_rank ?mxrank0 ?min0 //.
congr (Ok (np.NdArray _)); rewrite /pinv_mx trmx0.
by case: ifP => _; rewrite ?mul0mx ?mulmx0.
Qed.

End PinvAlgebra.

Lemma moore_penrose_square_example :
  moore_penrose square_example square_example.
Proof. by rewrite /square_example; split; rewrite ?mul1mx ?trmx1. Qed.

Lemma inv_square_example :
  np.linalg.inv (np.NdArray square_example) = Ok (np.NdArray square_example).
Proof. by rewrite invE /square_example unitmx1 invmx1. Qed.

Lemma mp_pinv_only_failure_example :
  mp_pinv (exact algR) (np.NdArray deficient_example) =
    Raise (LinAlgError msg_not_posdef) /\
  (LinAlgError msg_not_posdef = LinAlgError msg_not_posdef /\
   (\rank deficient_example < minn 2 2)%N).
Proof.
have raises : mp_pinv (exact algR) (np.NdArray deficient_example) =
    Raise (LinAlgError msg_not_posdef).
  by apply: mp_pinv_deficient; rewrite ltn_eqF // rank_deficient_example.
by split; [exact: raises | exact: mp_pinv_only_failure raises].
Defined.

Lemma mp_pinv_one_sided_inverse_example :
  exists2 Y : 'M[algR]_(3, 2),
    mp_pinv (exact algR) (np.NdArray wide_example) = Ok (np.NdArray Y) &
    ((2 <= 3)%N -> wide_example *m Y = 1%:M) /\
    ((3 <= 2)%N -> Y *m wide_example = 1%:M).
Proof. exact: mp_pinv_one_sided_inverse rank_wide_example. Defined.

Lemma mp_pinv_inverse_example :
  np.linalg.inv (np.NdArray square_example) =
    Ok (np.NdArray square_example) /\
  mp_pinv (exact algR) (np.NdArray square_example) =
    Ok (np.NdArray square_example).
Proof.
split; first exact: inv_square_example.
exact: mp_pinv_inverse inv_square_example.
Defined.

Lemma mp_pinv_unique_example :
  [/\ \rank square_example = minn 2 2,
      moore_penrose square_example square_example
    & mp_pinv (exact algR) (np.NdArray square_example) =
        Ok (np.NdArray square_example)].
Proof.
split; [exact: rank_square_example | exact: moore_penrose_square_example | ].
exact: mp_pinv_unique rank_square_example moore_penrose_square_example.
Defined.

Lemma mp_pinv_involutive_example :
  bind (mp_pinv (exact algR) (np.NdArray wide_example))
    (mp_pinv (exact algR)) =
  Ok (np.NdArray wide_example).
Proof. exact: mp_pinv_involutive rank_wide_example. Defined.

Lemma mp_pinv_transpose_example :
  exists2 Y : np.ndarray algR,
    mp_pinv_path (exact algR) (2 < 3)%N (np.NdArray wide_example) = Ok Y /\
    mp_pinv_path (exact algR) (3 < 2)%N (np.T (np.NdArray wide_example)) =
      Ok (np.T Y) &
    mp_pinv (exact algR) (np.NdArray wide_example) = Ok Y /\
    mp_pinv (exact algR) (np.T (np.NdArray wide_example)) = Ok (np.T Y).
Proof. exact: mp_pinv_transpose rank_wide_example. Defined.

Lemma mp_pinv_other_path_example :
  mp_pinv_path (exact algR) (~~ (2 < 3)%N) (np.NdArray wide_example) =
  Raise (LinAlgError msg_not_posdef).
Proof. exact: (@mp_pinv_other_path _ 2 3 wide_example isT). Defined.

Lemma mp_pinv_empty_example :
  mp_pinv (exact algR) (np.NdArray (0 : 'M[algR]_(0, 3))) =
  Ok (np.NdArray (0 : 'M[algR]_(3, 0))).
Proof. exact: (@mp_pinv_empty _ 0 3 0 isT). Defined.

(** ** Arithmetic with broadcasting *)

Section UfuncTheory.

Variable R : rcfType.

Lemma item_ord m n (A : 'M[R]_(m, n)) (i : 'I_m) (j : 'I_n) :
  ufunc.item (np.NdArray A) i j = A i j.
Proof. by rewrite /ufunc.item /= !valK. Qed.

Lemma stretch_ord d (i : 'I_d) : ufunc.stretch d i = i.
Proof.
rewrite /ufunc.stretch; case: eqP => // d1; move: i; rewrite d1 => i.
by rewrite ord1.
Qed.

Lemma broadcast_dimxx d : ufunc.broadcast_dim d d = Some d.
Proof. by rewrite /ufunc.broadcast_dim eqxx. Qed.

Lemma broadcast_dim1 d : ufunc.broadcast_dim d 1 = Some d.
Proof.
by rewrite /ufunc.broadcast_dim; case: eqP => // _; case: eqP => // ->.
Qed.

Lemma broadcast_1dim d : ufunc.broadcast_dim 1 d = Some d.
Proof. by rewrite /ufunc.broadcast_dim; case: eqP => // <-. Qed.

Lemma broadcast_mx_same (T : Type) (op : R -> R -> T) m n
    (A B : 'M[R]_(m, n)) :
  ufunc.broadcast_mx op (np.NdArray A) (np.NdArray B) m n =
  \matrix_(i, j) op (A i j) (B i j).
Proof.
by apply/matrixP=> i j; rewrite !mxE /= !stretch_ord !item_ord.
Qed.

Lemma broadcast_mx_row (T : Type) (op : R -> R -> T) m n
    (A : 'M[R]_(m, n)) (B : 'rV[R]_n) :
  ufunc.broadcast_mx op (np.NdArray A) (np.NdArray B) m n =
  \matrix_(i, j) op (A i j) (B 0 j).
Proof.
apply/matrixP=> i j; rewrite !mxE /= !stretch_ord.
by rewrite /ufunc.stretch eqxx -[0%N]/(val (0 : 'I_1)) !item_ord.
Qed.

Lemma broadcast_mx_col_row (T : Type) (op : R -> R -> T) m n
    (A : 'cV[R]_m) (B : 'rV[R]_n) :
  ufunc.broadcast_mx op (np.NdArray A) (np.NdArray B) m n =
  \matrix_(i, j) op (A i 0) (B 0 j).
Proof.
apply/matrixP=> i j; rewrite !mxE /= !stretch_ord.
by rewrite /ufunc.stretch eqxx -[0%N]/(val (0 : 'I_1)) !item_ord.
Qed.

Lemma broadcast_shape_same m n (A B : 'M[R]_(m, n)) :
  ufunc.broadcast_shape (np.NdArray A) (np.NdArray B) = Some (m, n).
Proof. by rewrite /ufunc.broadcast_shape /= !broadcast_dimxx. Qed.

Lemma broadcast_shape_row m n (A : 'M[R]_(m, n)) (B : 'rV[R]_n) :
  ufunc.broadcast_shape (np.NdArray A) (np.NdArray B) = Some (m, n).
Proof.
by rewrite /ufunc.broadcast_shape /= broadcast_dim1 broadcast_dimxx.
Qed.

Lemma broadcast_shape_col_row m n (A : 'cV[R]_m) (B : 'rV[R]_n) :
  ufunc.broadcast_shape (np.NdArray A) (np.NdArray B) = Some (m, n).
Proof.
by rewrite /ufunc.broadcast_shape /= broadcast_dim1 broadcast_1dim.
Qed.

(** Equal shapes: the operation entry by entry. *)
Lemma broadcast_same op m n (A B : 'M[R]_(m, n)) :
  ufunc.broadcast op (np.NdArray A) (np.NdArray B) =
  Ok (np.NdArray (\matrix_(i, j) op (A i j) (B i j))).
Proof.
by rewrite /ufunc.broadcast broadcast_shape_same broadcast_mx_same.
Qed.

(** An array against a row: the row is repeated. *)
Lemma broadcast_row op m n (A : 'M[R]_(m, n)) (B : 'rV[R]_n) :
  ufunc.broadcast op (np.NdArray A) (np.NdArray B) =
  Ok (np.NdArray (\matrix_(i, j) op (A i j) (B 0 j))).
Proof.
by rewrite /ufunc.broadcast broadcast_shape_row broadcast_mx_row.
Qed.

(** A column against a row: every pair of entries. *)
Lemma broadcast_col_row op m n (A : 'cV[R]_m) (B : 'rV[R]_n) :
  ufunc.broadcast op (np.NdArray A) (np.NdArray B) =
  Ok (np.NdArray (\matrix_(i, j) op (A i 0) (B 0 j))).
Proof.
by rewrite /ufunc.broadcast broadcast_shape_col_row broadcast_mx_col_row.
Qed.

(** A one-dimensional array reshaped into a column. *)
Lemma reshape_column k (v : 'rV[R]_k) :
  ufunc.reshape (ufunc.NdArray1 v) k 1 = Ok (np.NdArray v^T).
Proof.
rewrite /ufunc.reshape /= muln1 eqxx; congr (Ok (np.NdArray _)).
apply/matrixP=> i j; rewrite !mxE ord1 muln1 addn0 /ufunc.item1 /=.
by rewrite valK.
Qed.

Lemma mean0 m n :
  ufunc.mean (np.NdArray (0 : 'M[R]_(m, n))) =
  if (m * n == 0)%N then None else Some 0.
Proof.
rewrite /ufunc.mean /=; case: ifP => // _; rewrite big1 ?mul0r // => i _.
by rewrite big1 // => j _; rewrite mxE.
Qed.

End UfuncTheory.

(** ** The comparison with NumPy's pseudoinverse *)

Section ComparisonTheory.

Variable R : rcfType.

Variable pinv : np.ndarray R -> result (np.ndarray R).

Local Arguments mp_pinv : simpl never.

(** X9: on a full-rank [matrix], if what [np.linalg.pinv] returns satisfies
    the four Moore-Penrose identities, the mean squared difference between it
    and the result of [mp_pinv] is exactly zero under exact arithmetic (and
    [nan], as any mean, on a matrix without entries). *)
Theorem comparison_exact m n (matrix : 'M[R]_(m, n)) (Z : 'M[R]_(n, m)) :
  \rank matrix = minn m n ->
  pinv (np.NdArray matrix) = Ok (np.NdArray Z) -> moore_penrose matrix Z ->
  Cells.comparison pinv (np.NdArray matrix) =
  Ok (if (n * m == 0)%N then None else Some 0).
Proof.
move=> full pinvZ mpZ; rewrite /Cells.comparison pinvZ /=.
rewrite mp_pinv_full_rank //= /ufunc.subtract broadcast_same /=.
rewrite (moore_penrose_unique mpZ (pinv_mx_moore_penrose full)).
rewrite -mean0; congr (Ok (ufunc.mean _)).
rewrite /ufunc.map /=; congr (np.NdArray _).
by apply/matrixP=> i j; rewrite !mxE subrr expr0n.
Qed.

End ComparisonTheory.

Lemma comparison_exact_example :
  [/\ \rank square_example = minn 2 2,
      moore_penrose square_example square_example
    & Cells.comparison (fun _ => Ok (np.NdArray square_example))
        (np.NdArray square_example) = Ok (Some 0)].
Proof.
split; [exact: rank_square_example | exact: moore_penrose_square_example | ].
exact: (@comparison_exact _ (fun _ => Ok (np.NdArray square_example)) _ _
          square_example square_example rank_square_example erefl
          moore_penrose_square_example).
Defined.

(** ** The normalization of the data set *)

Section NormalizationTheory.

Variable R : rcfType.

Lemma bigmin_attained (I : finType) (F : I -> R) (i0 : I) :
  exists i, \big[Order.min/F i0]_i F i = F i.
Proof.
elim/big_ind: _ => [|x y [i ->] [j ->]|i _]; [by exists i0| |by exists i].
by case: (leP (F i) (F j)) => _; [exists i|exists j].
Qed.

Lemma bigmax_attained (I : finType) (F : I -> R) (i0 : I) :
  exists i, \big[Order.max/F i0]_i F i = F i.
Proof.
elim/big_ind: _ => [|x y [i ->] [j ->]|i _]; [by exists i0| |by exists i].
by case: (leP (F i) (F j)) => _; [exists j|exists i].
Qed.

Lemma column_min_le m n (X : 'M[R]_(m.+1, n)) i j : column_min X j <= X i j.
Proof. exact: bigmin_le. Qed.

Lemma column_max_ge m n (X : 'M[R]_(m.+1, n)) i j : X i j <= column_max X j.
Proof. exact: (le_bigmax (X ord0 j) (X^~ j) i). Qed.

Lemma normalizationE m n (X : 'M[R]_(m.+1, n)) :
  Cells.normalization (np.NdArray X) =
  Ok (ufunc.Quotients (\matrix_(i, j)
        if column_max X j - column_min X j == 0 then None
        else Some ((X i j - column_min X j) /
                   (column_max X j - column_min X j)))).
Proof.
rewrite /Cells.normalization /ufunc.amin /ufunc.amax /ufunc.reduce0 /=.
rewrite /ufunc.subtract /ufunc.as_row /= broadcast_row /= broadcast_same /=.
rewrite /ufunc.divide broadcast_shape_row broadcast_mx_row.
by congr (Ok (ufunc.Quotients _)); apply/matrixP=> i j; rewrite !mxE.
Qed.

(** X10: on a data set with at least one row the normalization returns an
    array of the same shape, column by column: in a column whose entries are
    not all equal every entry lies between 0 and 1, the least one becomes 0
    and the largest one becomes 1; in a column whose entries are all equal
    every entry is the quotient of zero by zero, which NumPy stores as
    [nan]. *)
Theorem normalization_range m n (X : 'M[R]_(m.+1, n)) :
  exists2 Xn : 'M[option R]_(m.+1, n),
    Cells.normalization (np.NdArray X) = Ok (ufunc.Quotients Xn) &
    forall j,
      if [forall i, X i j == X ord0 j] then forall i, Xn i j = None
      else [/\ forall i, exists2 x, Xn i j = Some x & 0 <= x <= 1,
               exists i, Xn i j = Some 0 & exists i, Xn i j = Some 1].
Proof.
rewrite normalizationE; eexists; first by [].
move=> j; have [i_lo lo_at] := bigmin_attained (X^~ j) ord0.
have [i_hi hi_at] := bigmax_attained (X^~ j) ord0.
rewrite -/(column_min X j) in lo_at; rewrite -/(column_max X j) in hi_at.
case: forallP => [const|/forallP].
  move=> i; rewrite mxE lo_at hi_at (eqP (const i_lo)) (eqP (const i_hi)).
  by rewrite subrr eqxx.
rewrite negb_forall => /existsP[i neq_i].
have lt_lo_hi : column_min X j < column_max X j.
  case: (ltgtP (X i j) (X ord0 j)) neq_i => // [lt_i|lt_i] _.
    apply: le_lt_trans (column_min_le X i j) _.
    exact: lt_le_trans lt_i (column_max_ge X ord0 j).
  apply: le_lt_trans (column_min_le X ord0 j) _.
  exact: lt_le_trans lt_i (column_max_ge X i j).
have den_gt0 : 0 < column_max X j - column_min X j by rewrite subr_gt0.
have den_neq0 := lt0r_neq0 den_gt0.
split=> [k| | ].
- rewrite mxE (negPf den_neq0); eexists; first by [].
  rewrite divr_ge0 ?subr_ge0 ?column_min_le ?(ltW lt_lo_hi) //=.
  by rewrite ler_pdivrMr // mul1r lerD2r column_max_ge.
- by exists i_lo; rewrite mxE (negPf den_neq0) -lo_at subrr mul0r.
- by exists i_hi; rewrite mxE (negPf den_neq0) -hi_at divff.
Qed.

Lemma column_min_affine m n (X : 'M[R]_(m.+1, n)) (a c : 'rV[R]_n) j :
  0 < a 0 j ->
  column_min (\matrix_(i, k) (a 0 k * X i k + c 0 k)) j =
  a 0 j * column_min X j + c 0 j.
Proof.
move=> a_gt0; set X' := \matrix_(i, k) _.
have [i_lo lo_at] := bigmin_attained (X^~ j) ord0.
have [i_lo' lo_at'] := bigmin_attained (X'^~ j) ord0.
rewrite -/(column_min X j) in lo_at; rewrite -/(column_min X' j) in lo_at'.
apply/eqP; rewrite eq_le; apply/andP; split.
  by rewrite lo_at (le_trans (column_min_le X' i_lo j)) // mxE.
by rewrite lo_at' mxE lerD2r ler_pM2l // column_min_le.
Qed.

Lemma column_max_affine m n (X : 'M[R]_(m.+1, n)) (a c : 'rV[R]_n) j :
  0 < a 0 j ->
  column_max (\matrix_(i, k) (a 0 k * X i k + c 0 k)) j =
  a 0 j * column_max X j + c 0 j.
Proof.
move=> a_gt0; set X' := \matrix_(i, k) _.
have [i_hi hi_at] := bigmax_attained (X^~ j) ord0.
have [i_hi' hi_at'] := bigmax_attained (X'^~ j) ord0.
rewrite -/(column_max X j) in hi_at; rewrite -/(column_max X' j) in hi_at'.
apply/eqP; rewrite eq_le; apply/andP; split.
  by rewrite hi_at' mxE lerD2r ler_pM2l // column_max_ge.
by rewrite hi_at (le_trans _ (column_max_ge X' i_hi j)) // mxE.
Qed.

(** X11: the normalization does not depend on the unit or the origin a
    feature is measured in: replacing every column [X[:,j]] by
    [a[j] * X[:,j] + c[j]] with [a[j] > 0] gives the same normalized array. *)
Theorem normalization_units m n (X : 'M[R]_(m.+1, n)) (a c : 'rV[R]_n) :
  (forall j, 0 < a 0 j) ->
  Cells.normalization
    (np.NdArray (\matrix_(i, j) (a 0 j * X i j + c 0 j))) =
  Cells.normalization (np.NdArray X).
Proof.
move=> a_gt0; rewrite !normalizationE; congr (Ok (ufunc.Quotients _)).
apply/matrixP=> i j; rewrite !mxE column_min_affine // column_max_affine //.
have a_neq0 := lt0r_neq0 (a_gt0 j).
have affine u v :
    a 0 j * u + c 0 j - (a 0 j * v + c 0 j) = a 0 j * (u - v).
  by rewrite mulrBr opprD addrACA subrr addr0.
rewrite !affine mulf_eq0 (negPf a_neq0) /=; case: ifP => // _.
by rewrite -mulf_div divff // mul1r.
Qed.

End NormalizationTheory.

Lemma normalization_units_example :
  (forall j, 0 < (const_mx 2 : 'rV[algR]_1) 0 j) /\
  Cells.normalization
    (np.NdArray (\matrix_(i, j) ((const_mx 2 : 'rV[algR]_1) 0 j *
                                 data_example i j +
                                 (const_mx 1 : 'rV[algR]_1) 0 j))) =
  Cells.normalization (np.NdArray data_example).
Proof.
have pos j : 0 < (const_mx 2 : 'rV[algR]_1) 0 j by rewrite mxE ltr0n.
split=> //.
exact: (@normalization_units _ 1 1 data_example _ (const_mx 1) pos).
Defined.

(** ** Training and scoring the network *)

Section CellsTheory.

Variable R : rcfType.

Variable exp : R -> R.

Variables h d n : nat.

Implicit Types (X : 'M[R]_(n, d)) (y : 'rV[R]_n) (w : 'M[R]_(h, d)).
Implicit Types (b : 'cV[R]_h).

Local Arguments mp_pinv : simpl never.

Local Notation training X y w b :=
  (Cells.training exp (np.NdArray X) (ufunc.NdArray1 y)
     (np.NdArray w) (np.NdArray b)).

Lemma bias_matrix p (P : 'M[R]_(h, p)) b :
  \matrix_(i, j) (P i j +
    (\matrix_(i0, j0) (b i0 0 * (const_mx 1 : 'rV_p) 0 j0)) i j) =
  \matrix_(i, j) (P i j + b i 0) :> 'M[R]_(h, p).
Proof. by apply/matrixP=> i j; rewrite !mxE mulr1. Qed.

(** The training cell on arrays of matching shapes. *)
Lemma trainingE X y w b :
  training X y w b =
  let W := map_mx (fun t => t * 2 - 1) w in
  let Hm := hidden_mx exp W b X in
  let beta := pinv_mx Hm^T *m y^T in
  if \rank Hm == minn n h then
    Ok (Cells.Fitted (np.NdArray W) (np.NdArray b) (np.NdArray Hm)
          (np.NdArray beta) (np.NdArray (Hm^T *m beta)))
  else Raise (LinAlgError msg_not_posdef).
Proof.
rewrite /Cells.training /= reshape_column /=.
rewrite /ufunc.multiply /ufunc.as_row /ufunc.ones /= broadcast_col_row /=.
rewrite /ufunc.map /np.T /= matmulE /= /ufunc.add broadcast_same /=.
rewrite bias_matrix /Cells.sigmoid /ufunc.map /=.
rewrite -/(hidden_mx exp (map_mx _ w) b X); set Hm := hidden_mx exp _ b X.
case: eqP => [full|/eqP not_full]; last first.
  by rewrite mp_pinv_deficient // mxrank_tr.
by rewrite mp_pinv_full_rank ?mxrank_tr //= matmulE /= trmxK matmulE.
Qed.

(** The test cell on fitted weights and samples of matching shapes. *)
Lemma testingE p (W : 'M[R]_(h, d)) b (Hf Yf : np.ndarray R)
    (beta : 'cV[R]_h) (Xtest : 'M[R]_(p, d)) :
  Cells.testing exp
    (Cells.Fitted (np.NdArray W) (np.NdArray b) Hf (np.NdArray beta) Yf)
    (np.NdArray Xtest) =
  Ok (np.NdArray ((hidden_mx exp W b Xtest)^T *m beta)).
Proof.
rewrite /Cells.testing /=.
rewrite /ufunc.multiply /ufunc.as_row /ufunc.ones /= broadcast_col_row /=.
rewrite /np.T /= matmulE /= /ufunc.add broadcast_same /=.
by rewrite bias_matrix /Cells.sigmoid /ufunc.map /= matmulE.
Qed.

Lemma testing_mismatch p d' (W : 'M[R]_(h, d)) b
    (Hf Yf betaf : np.ndarray R) (Xtest : 'M[R]_(p, d')) :
  d' != d ->
  Cells.testing exp
    (Cells.Fitted (np.NdArray W) (np.NdArray b) Hf betaf Yf)
    (np.NdArray Xtest) = Raise (ValueError msg_matmul).
Proof.
move=> neq_d; rewrite /Cells.testing /=.
rewrite /ufunc.multiply /ufunc.as_row /ufunc.ones /= broadcast_col_row /=.
by rewrite /np.matmul /= eq_sym (negPf neq_d).
Qed.

Lemma sum_squaresE p (v : 'cV[R]_p) : sum_squares v = (v^T *m v) 0 0.
Proof.
by rewrite /sum_squares !mxE; apply: eq_bigr => i _; rewrite !mxE expr2.
Qed.

Lemma sum_squares_ge0 p (v : 'cV[R]_p) : 0 <= sum_squares v.
Proof. by apply: sumr_ge0 => i _; apply: sqr_ge0. Qed.

(** Pythagoras: orthogonal columns add their sums of squares. *)
Lemma sum_squares_orth p (u r : 'cV[R]_p) :
  u^T *m r = 0 -> sum_squares (u + r) = sum_squares u + sum_squares r.
Proof.
move=> ur0; have ru0 : r^T *m u = 0.
  by rewrite -[LHS]trmxK trmx_mul trmxK ur0 trmx0.
rewrite !sum_squaresE [(u + r)^T]linearD /= mulmxDl !mulmxDr ur0 ru0.
by rewrite addr0 add0r mxE.
Qed.

Lemma sum_squares_le_orth p (u r : 'cV[R]_p) :
  u^T *m r = 0 -> sum_squares r <= sum_squares (u + r).
Proof. by move=> /sum_squares_orth->; rewrite lerDr sum_squares_ge0. Qed.

(** X12: on [n] samples with [d] features, [n] labels and random draws of
    the shapes the cell asks for, the training cell never fails on a shape:
    it returns, with weights of shape [(h, d)], a hidden layer matrix of shape
    [(h, n)] and of full rank, output weights of shape [(h, 1)] and training
    predictions of shape [(n, 1)], or it raises the [LinAlgError] of the
    factorization in [mp_pinv]. *)
Theorem training_outcome X y w b :
  match training X y w b with
  | Ok f =>
      [/\ np.shape (Cells.w_i f) = (h, d),
          np.shape (Cells.H f) = (h, n),
          np.shape (Cells.beta_i f) = (h, 1%N),
          np.shape (Cells.Y f) = (n, 1%N)
        & \rank (np.data (Cells.H f)) = minn n h]
  | Raise e => e = LinAlgError msg_not_posdef
  end.
Proof. by rewrite trainingE /=; case: eqP. Qed.

(** X13: when the number of labels differs from the number of samples, the
    training cell raises [ValueError] from [reshape], before any other
    computation. *)
Theorem training_label_count k (v : 'rV[R]_k) X w b :
  k != n ->
  Cells.training exp (np.NdArray X) (ufunc.NdArray1 v)
    (np.NdArray w) (np.NdArray b) = Raise (ValueError msg_reshape).
Proof.
move=> neq_kn.
by rewrite /Cells.training /ufunc.reshape /= muln1 (negPf neq_kn).
Qed.

(** X14: when the training cell returns and there are at least as many
    hidden neurons as samples, the training predictions [Y] are exactly the
    labels: the network interpolates its training set (exact arithmetic). *)
Theorem training_interpolates X y w b f :
  training X y w b = Ok f -> (n <= h)%N ->
  Cells.Y f = np.NdArray y^T.
Proof.
rewrite trainingE /=; case: eqP => // full [<-] /minn_idPl nh /=.
congr (np.NdArray _); rewrite mulmxA pinv_mx_right ?mul1mx //.
by rewrite /row_free mxrank_tr full nh.
Qed.

(** X15: when the training cell returns, the output weights [beta_i] solve
    the least squares problem: the residual [H.T beta_i - labels] of the
    training predictions satisfies the normal equations, and no other weights
    give a smaller sum of squared errors on the training set. *)
Theorem training_least_squares X y w b f :
  training X y w b = Ok f ->
  exists2 Hm : 'M[R]_(h, n), Cells.H f = np.NdArray Hm &
  exists2 beta : 'cV[R]_h, Cells.beta_i f = np.NdArray beta &
    [/\ Cells.Y f = np.NdArray (Hm^T *m beta),
        Hm *m (Hm^T *m beta - y^T) = 0
      & forall beta' : 'cV[R]_h,
          sum_squares (Hm^T *m beta - y^T) <=
          sum_squares (Hm^T *m beta' - y^T)].
Proof.
rewrite trainingE /=; set W := map_mx _ w; set Hm := hidden_mx exp W b X.
case: eqP => // full [<-] /=; exists Hm => //.
exists (pinv_mx Hm^T *m y^T) => //.
have full_t : \rank Hm^T = minn n h by rewrite mxrank_tr.
have [GYG _ symGY _] := pinv_mx_moore_penrose full_t.
have normal : Hm *m (Hm^T *m (pinv_mx Hm^T *m y^T) - y^T) = 0.
  have key : Hm *m (Hm^T *m pinv_mx Hm^T) = Hm.
    by apply: trmx_inj; rewrite trmx_mul symGY GYG.
  by rewrite mulmxBr [Hm^T *m _]mulmxA [Hm *m _]mulmxA key subrr.
split=> // beta'; set r := _ - y^T.
have -> : Hm^T *m beta' - y^T = Hm^T *m (beta' - (pinv_mx Hm^T *m y^T)) + r.
  by rewrite mulmxBr /r addrA subrK.
apply: sum_squares_le_orth.
by rewrite trmx_mul trmxK -mulmxA normal mulmx0.
Qed.

(** X16: when the training cell returns, the output weights [beta_i] have
    the least sum of squares among all weights that give the same training
    predictions. *)
Theorem training_minimum_norm X y w b f :
  training X y w b = Ok f ->
  exists2 Hm : 'M[R]_(h, n), Cells.H f = np.NdArray Hm &
  exists2 beta : 'cV[R]_h, Cells.beta_i f = np.NdArray beta &
    forall beta' : 'cV[R]_h,
      Hm^T *m beta' = Hm^T *m beta -> sum_squares beta <= sum_squares beta'.
Proof.
rewrite trainingE /=; set W := map_mx _ w; set Hm := hidden_mx exp W b X.
case: eqP => // full [<-] /=; exists Hm => //.
exists (pinv_mx Hm^T *m y^T) => // beta' same.
have full_t : \rank Hm^T = minn n h by rewrite mxrank_tr.
have [_ YGY _ symYG] := pinv_mx_moore_penrose full_t.
set beta := pinv_mx Hm^T *m y^T in same *.
have row_space : beta = Hm *m ((pinv_mx Hm^T)^T *m beta).
  have HY : Hm *m (pinv_mx Hm^T)^T = pinv_mx Hm^T *m Hm^T.
    by rewrite -symYG trmx_mul trmxK.
  by rewrite mulmxA HY /beta !mulmxA YGY.
rewrite -[beta'](subrK beta); apply: sum_squares_le_orth.
rewrite {2}row_space mulmxA -[Hm]trmxK -trmx_mul trmxK.
by rewrite mulmxBr same subrr trmx0 mul0mx.
Qed.

(** X17: after a training that returned, the test cell on [p] samples
    returns scores of shape [(p, 1)] when the samples have the [d] features of
    the training set, and raises [ValueError] from [np.matmul] when they have
    another number of features; it raises nothing else. *)
Theorem testing_outcome X y w b f p d' (Xtest : 'M[R]_(p, d')) :
  training X y w b = Ok f ->
  match Cells.testing exp f (np.NdArray Xtest) with
  | Ok testY => d' = d /\ np.shape testY = (p, 1%N)
  | Raise e => d' <> d /\ e = ValueError msg_matmul
  end.
Proof.
rewrite trainingE /=; case: eqP => // _ [<-].
case: (eqVneq d' d) => [eq_d|neq_d]; last first.
  by rewrite testing_mismatch //; split=> //; apply/eqP.
by move: Xtest; rewrite eq_d => Xtest; rewrite testingE.
Qed.

(** X18: after a training that returned, the score of test sample [j] is
    the sum over the hidden neurons [i] of [beta_i[i]] times the sigmoid of
    [w_i[i,:] . Xtest[j,:] + b_i[i]], with [w_i = rand_w*2 - 1] and
    [b_i = rand_b]: one bias per neuron, shared by all samples, and a score
    that depends on no other test sample. *)
Theorem testing_score X y w b f p (Xtest : 'M[R]_(p, d)) :
  training X y w b = Ok f ->
  exists beta : 'cV[R]_h,
    [/\ Cells.w_i f = np.NdArray (map_mx (fun t => t * 2 - 1) w),
        Cells.b_i f = np.NdArray b,
        Cells.beta_i f = np.NdArray beta
      & exists2 testY : 'cV[R]_p,
          Cells.testing exp f (np.NdArray Xtest) = Ok (np.NdArray testY) &
          forall j, testY j 0 =
            \sum_i 1 / (1 + exp (- (\sum_k (w i k * 2 - 1) * Xtest j k
                                    + b i 0))) * beta i 0].
Proof.
rewrite trainingE /=; case: eqP => // _ [<-] /=.
eexists; split; [by [] | by [] | by [] | ].
rewrite testingE; eexists; first by [].
move=> j; rewrite !mxE; apply: eq_bigr => i _; rewrite !mxE.
congr (1 / (1 + exp (- (_ + _))) * _).
by apply: eq_bigr => k _; rewrite !mxE.
Qed.

(** X19: after a training that returned, the test cell run on the training
    samples returns the training predictions [Y]: the two cells compute the
    same network. *)
Theorem testing_training_samples X y w b f :
  training X y w b = Ok f ->
  Cells.testing exp f (np.NdArray X) = Ok (Cells.Y f).
Proof.
by rewrite trainingE /=; case: eqP => // _ [<-]; rewrite testingE.
Qed.

(** X20: when the training cell returns, there are at least as many hidden
    neurons as samples and every label is 0 or 1, scoring the training
    samples and thresholding at 0.5 gives back every label: the training
    accuracy is 100% (exact arithmetic). *)
Theorem training_accuracy X y w b f :
  training X y w b = Ok f -> (n <= h)%N ->
  (forall i, y 0 i = 0 \/ y 0 i = 1) ->
  exists2 testY : 'cV[R]_n,
    Cells.testing exp f (np.NdArray X) = Ok (np.NdArray testY) &
    forall i, (Cells.Ypred (np.NdArray testY) i 0)%:R = y 0 i.
Proof.
rewrite trainingE /=; set W := map_mx _ w; set Hm := hidden_mx exp W b X.
case: eqP => // full [<-] /minn_idPl nh binary.
rewrite testingE -/Hm; exists (Hm^T *m (pinv_mx Hm^T *m y^T)) => //.
have freeH : row_free Hm^T by rewrite /row_free mxrank_tr full nh.
rewrite mulmxA pinv_mx_right // mul1mx.
move=> i; rewrite /Cells.Ypred !mxE /=.
case: (binary i) => ->; first by rewrite invr_ge0 ler0n.
by rewrite leNgt invf_lt1 ?ltr0n // ltr1n.
Qed.

End CellsTheory.

Lemma rank_hidden_example :
  \rank (hidden_mx exp_example (map_mx (fun t => t * 2 - 1) rand_w_example)
           rand_b_example Xtrain_example) = minn 1 1.
Proof.
rewrite rank_rV (_ : _ != 0) //; apply/eqP => /matrixP/(_ 0 0).
rewrite !mxE /exp_example => /eqP.
by rewrite mulf_eq0 oner_eq0 invr_eq0 (pnatr_eq0 _ 2).
Qed.

Lemma training_example :
  exists f,
    Cells.training exp_example (np.NdArray Xtrain_example)
      (ufunc.NdArray1 Ytrain_example) (np.NdArray rand_w_example)
      (np.NdArray rand_b_example) = Ok f.
Proof.
by rewrite trainingE; cbv zeta; rewrite rank_hidden_example eqxx; eexists.
Qed.

Lemma training_label_count_example :
  Cells.training exp_example (np.NdArray Xtrain_example)
    (ufunc.NdArray1 (0 : 'rV[algR]_0)) (np.NdArray rand_w_example)
    (np.NdArray rand_b_example) = Raise (ValueError msg_reshape).
Proof.
exact: (@training_label_count _ exp_example 1 1 1 0 0 Xtrain_example
          rand_w_example rand_b_example isT).
Defined.

Lemma training_interpolates_example :
  exists f,
    [/\ Cells.training exp_example (np.NdArray Xtrain_example)
          (ufunc.NdArray1 Ytrain_example) (np.NdArray rand_w_example)
          (np.NdArray rand_b_example) = Ok f,
        (1 <= 1)%N
      & Cells.Y f = np.NdArray Ytrain_example^T].
Proof.
have [f fit] := training_example; exists f; split=> //.
exact: training_interpolates fit isT.
Defined.

Lemma training_least_squares_example :
  exists f,
    Cells.training exp_example (np.NdArray Xtrain_example)
      (ufunc.NdArray1 Ytrain_example) (np.NdArray rand_w_example)
      (np.NdArray rand_b_example) = Ok f /\
    exists2 Hm : 'M[algR]_(1, 1), Cells.H f = np.NdArray Hm &
    exists2 beta : 'cV[algR]_1, Cells.beta_i f = np.NdArray beta &
      [/\ Cells.Y f = np.NdArray (Hm^T *m beta),
          Hm *m (Hm^T *m beta - Ytrain_example^T) = 0
        & forall beta' : 'cV[algR]_1,
            sum_squares (Hm^T *m beta - Ytrain_example^T) <=
            sum_squares (Hm^T *m beta' - Ytrain_example^T)].
Proof.
have [f fit] := training_example; exists f; split=> //.
exact: training_least_squares fit.
Defined.

Lemma training_minimum_norm_example :
  exists f,
    Cells.training exp_example (np.NdArray Xtrain_example)
      (ufunc.NdArray1 Ytrain_example) (np.NdArray rand_w_example)
      (np.NdArray rand_b_example) = Ok f /\
    exists2 Hm : 'M[algR]_(1, 1), Cells.H f = np.NdArray Hm &
    exists2 beta : 'cV[algR]_1, Cells.beta_i f = np.NdArray beta &
      forall beta' : 'cV[algR]_1,
        Hm^T *m beta' = Hm^T *m beta -> sum_squares beta <= sum_squares beta'.
Proof.
have [f fit] := training_example; exists f; split=> //.
exact: training_minimum_norm fit.
Defined.

Lemma testing_outcome_example :
  exists f,
    Cells.training exp_example (np.NdArray Xtrain_example)
      (ufunc.NdArray1 Ytrain_example) (np.NdArray rand_w_example)
      (np.NdArray rand_b_example) = Ok f /\
    match Cells.testing exp_example f (np.NdArray Xtrain_example) with
    | Ok testY => 1%N = 1%N /\ np.shape testY = (1%N, 1%N)
    | Raise e => 1%N <> 1%N /\ e = ValueError msg_matmul
    end.
Proof.
have [f fit] := training_example; exists f; split=> //.
exact: testing_outcome Xtrain_example fit.
Defined.

Lemma testing_score_example :
  exists f,
    Cells.training exp_example (np.NdArray Xtrain_example)
      (ufunc.NdArray1 Ytrain_example) (np.NdArray rand_w_example)
      (np.NdArray rand_b_example) = Ok f /\
    exists beta : 'cV[algR]_1,
      [/\ Cells.w_i f =
            np.NdArray (map_mx (fun t => t * 2 - 1) rand_w_example),
          Cells.b_i f = np.NdArray rand_b_example,
          Cells.beta_i f = np.NdArray beta
        & exists2 testY : 'cV[algR]_1,
            Cells.testing exp_example f (np.NdArray Xtrain_example) =
              Ok (np.NdArray testY) &
            forall j, testY j 0 =
              \sum_i 1 / (1 + exp_example
                         (- (\sum_k (rand_w_example i k * 2 - 1) *
                                    Xtrain_example j k
                             + rand_b_example i 0))) * beta i 0].
Proof.
have [f fit] := training_example; exists f; split=> //.
exact: testing_score Xtrain_example fit.
Defined.

Lemma testing_training_samples_example :
  exists f,
    Cells.training exp_example (np.NdArray Xtrain_example)
      (ufunc.NdArray1 Ytrain_example) (np.NdArray rand_w_example)
      (np.NdArray rand_b_example) = Ok f /\
    Cells.testing exp_example f (np.NdArray Xtrain_example) = Ok (Cells.Y f).
Proof.
have [f fit] := training_example; exists f; split=> //.
exact: testing_training_samples fit.
Defined.

Lemma training_accuracy_example :
  exists f,
    [/\ Cells.training exp_example (np.NdArray Xtrain_example)
          (ufunc.NdArray1 Ytrain_example) (np.NdArray rand_w_example)
          (np.NdArray rand_b_example) = Ok f,
        (1 <= 1)%N,
        forall i, Ytrain_example 0 i = 0 \/ Ytrain_example 0 i = 1
      & exists2 testY : 'cV[algR]_1,
          Cells.testing exp_example f (np.NdArray Xtrain_example) =
            Ok (np.NdArray testY) &
          forall i, (Cells.Ypred (np.NdArray testY) i 0)%:R =
                    Ytrain_example 0 i].
Proof.
have binary i : Ytrain_example 0 i = 0 \/ Ytrain_example 0 i = 1.
  by right; rewrite mxE.
have [f fit] := training_example; exists f; split=> //.
exact: training_accuracy fit isT binary.
Defined.

(** ** The activation as a function *)

Section SigmoidTheory.

Import Stdlib.Reals.Reals.

Local Open Scope R_scope.

(** X21: the activation is strictly increasing. *)
Theorem sigmoid_increasing (x y : R) :
  x < y -> ELM.sigmoid x < ELM.sigmoid y.
Proof.
move=> lt_xy; rewrite /ELM.sigmoid /Rdiv !Rmult_1_l.
have ex := exp_pos (- x); have ey := exp_pos (- y).
apply: Rinv_lt_contravar.
  by apply: Rmult_lt_0_compat; Stdlib.micromega.Lra.lra.
have := exp_increasing (- y) (- x); Stdlib.micromega.Lra.lra.
Qed.

(** X22: the activation is symmetric about its value 1/2 at 0:
    [sigmoid(-x) = 1 - sigmoid(x)]. *)
Theorem sigmoid_symmetry (x : R) :
  ELM.sigmoid (- x) = 1 - ELM.sigmoid x /\ ELM.sigmoid 0 = 1 / 2.
Proof.
rewrite /ELM.sigmoid Ropp_involutive Ropp_0 exp_0; split; last by field.
have ex := exp_pos x; rewrite exp_Ropp; field.
by split; Stdlib.micromega.Lra.lra.
Qed.

Lemma sigmoid_increasing_example :
  0 < 1 /\ ELM.sigmoid 0 < ELM.sigmoid 1.
Proof.
by split; [exact: Rlt_0_1 | exact: sigmoid_increasing Rlt_0_1].
Defined.

End SigmoidTheory.
